(** * MapReduce word count: a shallow embedding of [wordcount_mr.py],
      [wordcount_mt.py] and the thread-count guard of [app.py].

    Python values are modelled as follows.
    - [str] is a list of Unicode code points ([N]); a line sequence is a list
      of such strings.  The lowercase mapping of the code points outside
      ASCII and their membership in [\w] are parameters.
    - [int] is [Z]; [//] is floor division, which is [Z.div].
    - [dict]/[defaultdict(int)]/[Counter] used as a mapping is a
      [gmap (list N) Z]; Python's [==] on dicts compares keys and values and
      ignores insertion order, which is equality of [gmap]s.  Where the
      iteration order of a dict is observable ([CombinerThread.run] sorts
      [items()] with a stable sort) the dict is the list of its items in
      insertion order.
    - a slot array ([[None] * num_threads]) is a [list (option _)].
    - an exception that reaches the caller is [Raise]; an exception inside a
      thread ends that thread only, and the slot it was to write stays as it
      was.
    - [time.time()] readings are not modelled; every function returns the
      first component of the pair the source returns. *)

From Stdlib Require Import ZArith NArith Ascii String.
From stdpp Require Import gmap list sorting fin_maps.

Local Open Scope Z_scope.

(** ** Strings *)

(** Code points of an ASCII literal, to write inputs readably. *)
Definition str (s : string) : list N :=
  List.map N_of_ascii (list_ascii_of_string s).

Definition is_ascii_upper (c : N) : bool := ((65 <=? c) && (c <=? 90))%N.
Definition is_ascii_lower (c : N) : bool := ((97 <=? c) && (c <=? 122))%N.

(** The character class [[A-Za-z]]. *)
Definition is_alpha (c : N) : bool := is_ascii_upper c || is_ascii_lower c.

Section Tokenizer.

(** [str.lower()] maps every code point through Unicode's lowercase
    mapping.  On ASCII this is the usual shift of [A-Z].  The mapping of the
    code points from 128 on lives in the interpreter's Unicode tables and is
    a parameter here: it is given the text before the code point, the code
    point and the text after it (the lowercase of a Greek capital sigma
    depends on its neighbours), and may return several code points. *)
Variable lower_other : list N → N → list N → list N.

Definition lower_char (before : list N) (c : N) (after : list N) : list N :=
  if is_ascii_upper c then [(c + 32)%N]
  else if (c <? 128)%N then [c]
  else lower_other before c after.

Fixpoint lower_from (before s : list N) : list N :=
  match s with
  | [] => []
  | c :: after => lower_char before c after ++ lower_from (before ++ [c]) after
  end.

Definition lower (s : list N) : list N := lower_from [] s.

(** [re.findall(p+, s)] for a one-character class [p]: the maximal runs of
    characters satisfying [p], left to right.  [cur] is the run being read,
    most recent character first. *)
Fixpoint findall_run (p : N → bool) (cur : list N) (s : list N)
  : list (list N) :=
  match s with
  | [] => match cur with [] => [] | _ => [reverse cur] end
  | c :: s' =>
      if p c then findall_run p (c :: cur) s'
      else match cur with
           | [] => findall_run p [] s'
           | _ => reverse cur :: findall_run p [] s'
           end
  end.

Definition findall (p : N → bool) (s : list N) : list (list N) :=
  findall_run p [] s.

(** [re.findall(r"[A-Za-z]+", line.lower())] *)
Definition tokenize (line : list N) : list (list N) :=
  findall is_alpha (lower line).

End Tokenizer.

(** ** Integers, ranges and slices *)

Inductive exn := ZeroDivisionError | AttributeError.

Inductive result (A : Type) :=
| Ok (a : A)
| Raise (e : exn).
Arguments Ok {A} a.
Arguments Raise {A} e.

#[global] Instance result_bind : MBind result := λ A B k r,
  match r with
  | Ok a => k a
  | Raise e => Raise e
  end.

(** [a // b] *)
Definition floordiv (a b : Z) : result Z :=
  if decide (b = 0) then Raise ZeroDivisionError else Ok (a `div` b).

(** [range(n)]: empty when [n <= 0]. *)
Definition range (n : Z) : list Z := Z.of_nat <$> seq 0 (Z.to_nat n).

(** How a slice bound is resolved against a length: a negative bound counts
    from the end, and the outcome is clamped to [0, len]. *)
Definition clamp (len i : Z) : Z :=
  if decide (i < 0) then Z.max (i + len) 0 else Z.min i len.

(** [l[a:b]] *)
Definition py_slice {A} (l : list A) (a b : Z) : list A :=
  let len := Z.of_nat (length l) in
  let lo := clamp len a in
  let hi := clamp len b in
  take (Z.to_nat (hi - lo)) (drop (Z.to_nat lo) l).

(** The list comprehension of steps 1 and 4 of [multi_threaded_wordcount]:
    [[xs[i*size : (i+1)*size if i < num_threads-1 else total]
      for i in range(num_threads)]]. *)
Definition chunk_of {A} (xs : list A) (size total num_threads i : Z) : list A :=
  py_slice xs (i * size)
    (if decide (i < num_threads - 1) then (i + 1) * size else total).

Definition chunks {A} (xs : list A) (size total num_threads : Z)
  : list (list A) :=
  (fun i => chunk_of xs size total num_threads i) <$> range num_threads.

(** ** Dictionaries of counts *)

(** [counts[w] += c] on a [defaultdict(int)]; also
    [d[w] = d.get(w, 0) + c] on a plain dict. *)
Definition add_count (w : list N) (c : Z) (m : gmap (list N) Z)
  : gmap (list N) Z :=
  <[w := default 0 (m !! w) + c]> m.

(** Comparison of two [str]: lexicographic on code points. *)
Fixpoint str_leb (a b : list N) : bool :=
  match a, b with
  | [], _ => true
  | _ :: _, [] => false
  | x :: a', y :: b' =>
      if (x <? y)%N then true
      else if (x =? y)%N then str_leb a' b'
      else false
  end.

Definition str_le (a b : list N) : Prop := str_leb a b = true.

#[global] Instance str_le_dec : RelDecision str_le :=
  λ a b, decide (str_leb a b = true).

(** [sorted(ws)] on strings. *)
Definition sorted (ws : list (list N)) : list (list N) := merge_sort str_le ws.

(** ** Threads and slot arrays *)

(** [for i, a in enumerate(args): Thread(target, (a, slots, i)).start()]
    followed by the joins.  A task is a function of the slot array; the
    threads are run one after the other in start order.  A task of this
    program touches the shared array in one place, the assignment to its own
    slot, so interleavings do not produce other arrays. *)
Fixpoint run_threads {A Slots} (target : A → Slots → nat → Slots)
    (i : nat) (args : list A) (slots : Slots) : Slots :=
  match args with
  | [] => slots
  | a :: rest => run_threads target (S i) rest (target a slots i)
  end.

(** ** wordcount_mr.py *)

Section WordCountMR.

Variable lower_other : list N → N → list N → list N.

(** The two nested loops shared by [single_threaded_wordcount] and
    [map_task]. *)
Definition count_line (counts : gmap (list N) Z) (line : list N)
  : gmap (list N) Z :=
  foldl (λ counts word, add_count word 1 counts) counts
    (tokenize lower_other line).

Definition count_lines (counts : gmap (list N) Z) (lines : list (list N))
  : gmap (list N) Z :=
  foldl count_line counts lines.

Definition single_threaded_wordcount (lines : list (list N))
  : gmap (list N) Z :=
  count_lines ∅ lines.

(** [intermediate[index] = counts]; the index comes from [enumerate] over
    as many partitions as the array has slots. *)
Definition map_task (part_lines : list (list N))
    (intermediate : list (option (gmap (list N) Z))) (index : nat)
  : list (option (gmap (list N) Z)) :=
  <[index := Some (count_lines ∅ part_lines)]> intermediate.

(** The inner loop of [reduce_task]:
    [for key in keys: if key in part_counts: counts[key] += part_counts[key]] *)
Definition reduce_keys (part_counts counts : gmap (list N) Z)
    (keys : list (list N)) : gmap (list N) Z :=
  foldl (λ counts key,
           match part_counts !! key with
           | Some v => add_count key v counts
           | None => counts
           end) counts keys.

(** The outer loop of [reduce_task].  A slot still holding [None] makes
    [key in part_counts] raise as soon as there is a key to test; the
    exception ends the thread, which is [None] here. *)
Fixpoint reduce_loop (keys : list (list N))
    (intermediate : list (option (gmap (list N) Z)))
    (counts : gmap (list N) Z) : option (gmap (list N) Z) :=
  match intermediate with
  | [] => Some counts
  | Some part_counts :: rest =>
      reduce_loop keys rest (reduce_keys part_counts counts keys)
  | None :: rest =>
      match keys with
      | [] => reduce_loop keys rest counts
      | _ :: _ => None
      end
  end.

(** A thread that raised has not written its slot. *)
Definition reduce_task (keys : list (list N))
    (intermediate reduced : list (option (gmap (list N) Z))) (index : nat)
  : list (option (gmap (list N) Z)) :=
  match reduce_loop keys intermediate ∅ with
  | Some counts => <[index := Some counts]> reduced
  | None => reduced
  end.

(** [for word, cnt in part_counts.items():
       final_counts[word] = final_counts.get(word, 0) + cnt] *)
Definition merge_items (part_counts final_counts : gmap (list N) Z)
  : gmap (list N) Z :=
  map_fold (λ word cnt acc, add_count word cnt acc) final_counts part_counts.

(** [combiner_task] runs in a thread of its own: [None.items()] would end
    it and leave [final_counts] as merged so far. *)
Fixpoint combiner_task (reduced : list (option (gmap (list N) Z)))
    (final_counts : gmap (list N) Z) : gmap (list N) Z :=
  match reduced with
  | [] => final_counts
  | Some part_counts :: rest =>
      combiner_task rest (merge_items part_counts final_counts)
  | None :: _ => final_counts
  end.

(** Step 3: [for d in intermediate: unique_words.update(d.keys())], in the
    main thread. *)
Fixpoint shuffle (intermediate : list (option (gmap (list N) Z)))
    (unique_words : gset (list N)) : result (gset (list N)) :=
  match intermediate with
  | [] => Ok unique_words
  | Some d :: rest => shuffle rest (unique_words ∪ dom d)
  | None :: _ => Raise AttributeError
  end.

Definition multi_threaded_wordcount (lines : list (list N)) (num_threads : Z)
  : result (gmap (list N) Z) :=
  let total := Z.of_nat (length lines) in
  size ← floordiv total num_threads;
  let partitions := chunks lines size total num_threads in
  let intermediate :=
    run_threads map_task 0 partitions
      (replicate (Z.to_nat num_threads) None) in
  unique_words ← shuffle intermediate ∅;
  let sorted_keys := sorted (elements unique_words) in
  let nkeys := Z.of_nat (length sorted_keys) in
  ksize ← floordiv nkeys num_threads;
  let key_groups := chunks sorted_keys ksize nkeys num_threads in
  let reduced :=
    run_threads (λ keys reduced i, reduce_task keys intermediate reduced i)
      0 key_groups (replicate (Z.to_nat num_threads) None) in
  Ok (combiner_task reduced ∅).

End WordCountMR.

(** ** wordcount_mt.py *)

(** ASCII part of the class [\w]. *)
Definition is_ascii_word (c : N) : bool :=
  is_alpha c || ((48 <=? c) && (c <=? 57))%N || (c =? 95)%N.

(** ["\n".join(lines)] *)
Fixpoint join (sep : list N) (lines : list (list N)) : list N :=
  match lines with
  | [] => []
  | [line] => line
  | line :: rest => line ++ sep ++ join sep rest
  end.

(** [d[k] = v] on a dict kept as its items in insertion order: an existing
    key keeps its place. *)
Fixpoint dict_set (k : list N) (v : Z) (d : list (list N * Z))
  : list (list N * Z) :=
  match d with
  | [] => [(k, v)]
  | (k', v') :: rest =>
      if decide (k' = k) then (k, v) :: rest else (k', v') :: dict_set k v rest
  end.

(** [dict(pairs)] *)
Definition dict_of (pairs : list (list N * Z)) : list (list N * Z) :=
  foldl (λ d kv, dict_set kv.1 kv.2 d) [] pairs.

(** Where a pair goes in a list already in descending order of count: in
    front of the first pair whose count is not larger. *)
Fixpoint insert_desc (kv : list N * Z) (l : list (list N * Z))
  : list (list N * Z) :=
  match l with
  | [] => [kv]
  | kv' :: rest =>
      if decide (kv'.2 ≤ kv.2) then kv :: kv' :: rest
      else kv' :: insert_desc kv rest
  end.

(** [sorted(items, key=lambda kv: kv[1], reverse=True)].  Python's sort is
    stable, also with [reverse=True]: pairs of equal count keep the order of
    [items].  That fixes the outcome, which is computed here by insertion. *)
Definition sorted_by_count_desc (items : list (list N * Z))
  : list (list N * Z) :=
  foldr insert_desc [] items.

Section WordCountMT.

Variable lower_other : list N → N → list N → list N.
(** The class [\w] on the code points from 128 on. *)
Variable is_word_other : N → bool.

Definition is_word (c : N) : bool :=
  if (c <? 128)%N then is_ascii_word c else is_word_other c.

(** [re.findall(r"\w+", text.lower())] *)
Definition tokenize_w (text : list N) : list (list N) :=
  findall is_word (lower lower_other text).

(** [Counter(words)] *)
Definition Counter (words : list (list N)) : gmap (list N) Z :=
  foldl (λ counts word, add_count word 1 counts) ∅ words.

(** [MapThread]: the constructor joins and lowers the chunk, [run] counts
    and appends to the shared list under the lock. *)
Definition MapThread_run (chunk_lines : list (list N))
    (result_list : list (gmap (list N) Z)) : list (gmap (list N) Z) :=
  result_list ++ [Counter (tokenize_w (join [10%N] chunk_lines))].

(** [ReduceThread.run]: [sum(d.get(key, 0) for d in partials)]. *)
Definition ReduceThread_run (key : list N)
    (partials : list (gmap (list N) Z)) (result_dict : list (list N * Z))
  : list (list N * Z) :=
  dict_set key (foldl (λ acc d, acc + default 0 (d !! key)) 0 partials)
    result_dict.

(** [CombinerThread.run] *)
Definition CombinerThread_run (reduced : list (list N * Z))
    (result_list : list (list N * Z)) : list (list N * Z) :=
  result_list ++ sorted_by_count_desc reduced.

Definition single_thread_count (lines : list (list N)) : gmap (list N) Z :=
  Counter (tokenize_w (join [10%N] lines)).

(** The chunks of the Map phase,
    [lines[i*chunk_size : (i+1)*chunk_size] for i in range(num_threads)]. *)
Definition mt_chunks {A} (lines : list A) (chunk_size num_threads : Z)
  : list (list A) :=
  (λ i, py_slice lines (i * chunk_size) ((i + 1) * chunk_size))
    <$> range num_threads.

(** Threads are run in start order, and the set of keys is iterated in the
    order of [elements].  Python iterates a set of strings in an order that
    changes with the hash seed, so the order this gives to words of equal
    count is one of the possible ones and no property below relies on it. *)
Definition multithreaded_count (lines : list (list N)) (num_threads : Z)
  : result (list (list N * Z)) :=
  chunk_size ←
    floordiv (Z.of_nat (length lines) + num_threads - 1) num_threads;
  let partial_maps :=
    foldl (λ acc chunk, MapThread_run chunk acc) []
      (mt_chunks lines chunk_size num_threads) in
  let keys : gset (list N) :=
    match partial_maps with
    | [] => ∅
    | _ => ⋃ (dom <$> partial_maps)
    end in
  let reduced :=
    foldl (λ acc key, ReduceThread_run key partial_maps acc) []
      (elements keys) in
  let combined_list := CombinerThread_run reduced [] in
  Ok (dict_of combined_list).

End WordCountMT.

(** ** app.py *)

Inductive response :=
| BadRequest (msg : string)
| Counts (counts : gmap (list N) Z)
| ServerError (e : exn).

Section App.

Variable lower_other : list N → N → list N → list N.

(** [wordcount_api].  [file] is the uploaded file decoded into lines, if
    the request has one; [threads] is the outcome of
    [int(request.form.get('threads', '1'))], [None] when [int] raises
    [ValueError].  The thread count is checked before the upload is read,
    and the two rejections are as in the source.  Past them the handler
    names [single_threaded_wordcount] and [multi_threaded_wordcount], which
    app.py does not import, so the file as it stands ends there with a
    [NameError]; the last branch says what the handler returns once the
    names are bound to the functions of [wordcount_mr.py] (decoding of the
    upload and the timings left aside), and no property below is about
    it. *)
Definition wordcount_api (file : option (list (list N)))
    (threads : option Z) : response :=
  match file with
  | None => BadRequest "Missing file"
  | Some content =>
      match threads with
      | None => BadRequest "Invalid thread count"
      | Some num_threads =>
          if decide (num_threads < 1) then BadRequest "Invalid thread count"
          else
            match multi_threaded_wordcount lower_other content num_threads with
            | Ok multi_counts => Counts multi_counts
            | Raise e => ServerError e
            end
      end
  end.

End App.

(** * Vocabulary of the properties *)

(** A lowercase mapping that leaves the code points from 128 on alone, for
    the examples; ASCII text never consults it. *)
Definition lower_id : list N → N → list N → list N := λ _ c _, [c].

(** All the tokens of a line sequence, in reading order. *)
Definition tokens_of (lower_other : list N → N → list N → list N)
    (lines : list (list N))
  : list (list N) :=
  concat (tokenize lower_other <$> lines).

(** The count a dictionary gives a word, [d.get(w, 0)]. *)
Definition count_of (m : gmap (list N) Z) (w : list N) : Z :=
  default 0 (m !! w).

(** Every stored count is positive: a key is present exactly when it has
    been counted. *)
Definition positive (m : gmap (list N) Z) : Prop :=
  ∀ w v, m !! w = Some v → 0 < v.

(** Number of occurrences of a word in a list of words. *)
Fixpoint occurrences (w : list N) (ws : list (list N)) : Z :=
  match ws with
  | [] => 0
  | x :: rest => (if decide (x = w) then 1 else 0) + occurrences w rest
  end.

(** Sum over a list of dictionaries of the count each gives to [w]. *)
Definition total_of (w : list N) (ms : list (gmap (list N) Z)) : Z :=
  foldr (λ m acc, count_of m w + acc) 0 ms.

(** [sum(d.values())] *)
Definition sum_values (m : gmap (list N) Z) : Z :=
  map_fold (λ _ v acc, v + acc) 0 m.

(** One conditional accumulation of [reduce_task]. *)
Definition reduce_step (part_counts counts : gmap (list N) Z) (key : list N)
  : gmap (list N) Z :=
  match part_counts !! key with
  | Some v => add_count key v counts
  | None => counts
  end.

(** With every slot filled, the reduce loop is a fold over the partial
    count maps and does not raise. *)
Definition reduce_all (keys : list (list N))
    (parts : list (gmap (list N) Z)) (m : gmap (list N) Z)
  : gmap (list N) Z :=
  foldl (λ counts part_counts, reduce_keys part_counts counts keys) m parts.

(** The chunks as a recursion on the list: [m] chunks of [sz] elements, then
    the rest. *)
Fixpoint split_at {A} (sz m : nat) (xs : list A) : list (list A) :=
  match m with
  | O => [xs]
  | S m' => take sz xs :: split_at sz m' (drop sz xs)
  end.

(** Descending order of count. *)
Definition count_ge (a b : list N * Z) : Prop := b.2 ≤ a.2.

(** The pairs of one count, in the order they have in a list. *)
Definition with_count (c : Z) (l : list (list N * Z)) : list (list N * Z) :=
  filter (λ kv, kv.2 = c) l.

(** The order the specification describes for the combiner: descending
    count, and ascending word among equal counts. *)
Definition count_then_word (a b : list N * Z) : Prop :=
  b.2 < a.2 ∨ (a.2 = b.2 ∧ str_le a.1 b.1).

(** ** wordcount_mt.py: what [main] does with the counts *)

(** The test behind "Counts match single-threaded result":
    [dict(single_counts) == multi_counts], on the outcome of the two
    counters.  Both sides are compared as mappings. *)
Definition counts_match (lower_other : list N → N → list N → list N)
    (is_word_other : N → bool) (lines : list (list N)) (threads : Z)
  : result bool :=
  let single_counts := single_thread_count lower_other is_word_other lines in
  multi_counts ← multithreaded_count lower_other is_word_other lines threads;
  Ok (bool_decide (single_counts = list_to_map multi_counts)).

(** The loop under the heading "Top 20 words":
    [for idx, (w, c) in enumerate(multi_counts.items(), 1):
       print(...); if idx >= 25: break].
    The result lists what is printed: the index, the word and its count. *)
Fixpoint print_top (idx : Z) (items : list (list N * Z))
  : list (Z * list N * Z) :=
  match items with
  | [] => []
  | (w, c) :: rest =>
      (idx, w, c) :: if decide (idx >= 25) then [] else print_top (idx + 1) rest
  end.

(** The lowercase of an ASCII code point. *)
Definition ascii_lower (c : N) : N :=
  if is_ascii_upper c then (c + 32)%N else c.

(** The threads of a phase in an order of their own: each entry is the slot
    index of a task and its argument, and the tasks run in the order of the
    list. *)
Definition run_schedule {A Slots} (target : A → Slots → nat → Slots)
    (tasks : list (nat * A)) (slots : Slots) : Slots :=
  foldl (λ slots task, target task.2 slots task.1) slots tasks.

(** * Properties *)

(** ** The scenario of the specification *)

Example scenario_two_lines :
  multi_threaded_wordcount lower_id
    [str "The quick fox"; str "the QUICK brown fox"] 2
  = Ok {[ str "the" := 2; str "quick" := 2; str "fox" := 2; str "brown" := 1 ]}
  ∧ single_threaded_wordcount lower_id
      [str "The quick fox"; str "the QUICK brown fox"]
    = {[ str "the" := 2; str "quick" := 2; str "fox" := 2; str "brown" := 1 ]}.
Proof. split; by vm_compute. Qed.

Example scenario_repeated_word :
  multi_threaded_wordcount lower_id (replicate 1000 (str "word")) 8
  = Ok {[ str "word" := 1000 ]}.
Proof. by vm_compute. Qed.

(** The same lines through wordcount_mt.py.  The order of the words of equal
    count follows the iteration order of a set, which this model does not
    fix; the statement is up to that order. *)
Example mt_scenario :
  ∃ d, multithreaded_count lower_id (λ _, false)
         [str "The quick fox"; str "the QUICK brown fox"] 2 = Ok d ∧
       d ≡ₚ [(str "the", 2); (str "quick", 2); (str "fox", 2);
             (str "brown", 1)] ∧
       d !! 3%nat = Some (str "brown", 1).
Proof.
  eexists. split; [by vm_compute|]. split; [|done].
  apply NoDup_Permutation.
  - apply (bool_decide_unpack _). by vm_compute.
  - apply (bool_decide_unpack _). by vm_compute.
  - intros x. rewrite !elem_of_cons, !elem_of_nil. tauto.
Qed.

(** ** Slices and the partitioner *)

Lemma py_slice_nat {A} (l : list A) (a b : nat) :
  py_slice l (Z.of_nat a) (Z.of_nat b) = take (b - a) (drop a l).
Proof.
  unfold py_slice, clamp.
  destruct (decide (Z.of_nat a < 0)) as [?|_]; [lia|].
  destruct (decide (Z.of_nat b < 0)) as [?|_]; [lia|].
  destruct (decide (length l ≤ a)%nat) as [Hge|Hlt].
  - rewrite (drop_ge l a) by done.
    rewrite drop_ge by lia. by rewrite !take_nil.
  - replace (Z.to_nat (Z.of_nat a `min` Z.of_nat (length l))) with a by lia.
    destruct (decide (b ≤ length l)%nat).
    + f_equal. lia.
    + rewrite !take_ge; [done|rewrite length_drop; lia..].
Qed.

Lemma split_at_concat {A} sz m (xs : list A) : concat (split_at sz m xs) = xs.
Proof.
  revert xs. induction m as [|m IH]; intros xs; simpl.
  - apply app_nil_r.
  - by rewrite IH, take_drop.
Qed.

Lemma split_at_length {A} sz m (xs : list A) : length (split_at sz m xs) = S m.
Proof. revert xs. induction m as [|m IH]; intros xs; simpl; [done|by rewrite IH]. Qed.

Lemma split_at_lookup {A} sz m (xs : list A) i :
  (i ≤ m)%nat →
  split_at sz m xs !! i =
    Some (if decide (i < m)%nat then take sz (drop (i * sz) xs)
          else drop (i * sz) xs).
Proof.
  revert xs i. induction m as [|m IH]; intros xs i Hi; simpl.
  - by replace i with O by lia.
  - destruct i as [|i]; simpl; [done|].
    rewrite IH by lia. rewrite !drop_drop.
    repeat case_decide; try lia; done.
Qed.

Lemma chunks_split_at {A} (xs : list A) (sz m : nat) :
  (m * sz ≤ length xs)%nat →
  chunks xs (Z.of_nat sz) (Z.of_nat (length xs)) (Z.of_nat (S m))
  = split_at sz m xs.
Proof.
  intros Hle. unfold chunks, range. rewrite Nat2Z.id.
  apply list_eq. intros i.
  destruct (decide (i ≤ m)%nat) as [Hi|Hi].
  - rewrite split_at_lookup by done.
    rewrite <-list_fmap_compose, list_lookup_fmap, lookup_seq_lt by lia.
    simpl. f_equal. unfold chunk_of.
    assert (i * sz ≤ m * sz)%nat by (apply Nat.mul_le_mono_r; done).
    destruct (decide (i < m)%nat) as [Hlt|Hge].
    + rewrite decide_True by lia.
      replace (Z.of_nat i * Z.of_nat sz) with (Z.of_nat (i * sz)) by lia.
      replace ((Z.of_nat i + 1) * Z.of_nat sz)
        with (Z.of_nat (i * sz + sz)) by lia.
      rewrite py_slice_nat. f_equal. lia.
    + rewrite decide_False by lia.
      replace (Z.of_nat i * Z.of_nat sz) with (Z.of_nat (i * sz)) by lia.
      rewrite py_slice_nat. apply take_ge. rewrite length_drop. lia.
  - rewrite !(proj2 (lookup_ge_None _ _)); [done| |].
    + rewrite split_at_length. lia.
    + rewrite length_fmap, length_fmap, length_seq. lia.
Qed.

(** The partitioner as [multi_threaded_wordcount] calls it, with
    [size = total // num_threads], on a positive thread count. *)
Lemma chunks_floor {A} (xs : list A) (n : Z) :
  1 ≤ n →
  let sz := (length xs / Z.to_nat n)%nat in
  Z.of_nat (length xs) `div` n = Z.of_nat sz ∧
  ((Z.to_nat n - 1) * sz ≤ length xs)%nat ∧
  chunks xs (Z.of_nat (length xs) `div` n) (Z.of_nat (length xs)) n
  = split_at sz (Z.to_nat n - 1) xs.
Proof.
  intros Hn sz.
  assert (Hdiv : Z.of_nat (length xs) `div` n = Z.of_nat sz).
  { unfold sz. rewrite Nat2Z.inj_div, Z2Nat.id by lia. done. }
  assert (Hle : ((Z.to_nat n - 1) * sz ≤ length xs)%nat).
  { pose proof (Nat.Div0.mul_div_le (length xs) (Z.to_nat n)) as Hm.
    fold sz in Hm. nia. }
  split_and!; [done..|].
  rewrite Hdiv. rewrite <-(chunks_split_at xs sz) by done.
  do 2 f_equal. lia.
Qed.

(** ** Counting in dictionaries *)

Lemma occurrences_app w ws1 ws2 :
  occurrences w (ws1 ++ ws2) = occurrences w ws1 + occurrences w ws2.
Proof. induction ws1 as [|x ws1 IH]; simpl; [done|]. rewrite IH. lia. Qed.

Lemma occurrences_not_elem w ws : w ∉ ws → occurrences w ws = 0.
Proof.
  induction ws as [|x ws IH]; simpl; [done|].
  rewrite not_elem_of_cons. intros [Hne Hni].
  rewrite decide_False by done. rewrite IH by done. done.
Qed.

Lemma occurrences_NoDup w ws : NoDup ws → w ∈ ws → occurrences w ws = 1.
Proof.
  induction 1 as [|x ws Hx Hnd IH]; [by rewrite elem_of_nil|].
  simpl. rewrite elem_of_cons. intros [->|Hin].
  - rewrite decide_True by done. rewrite occurrences_not_elem by done. done.
  - rewrite decide_False by (intros ->; done). rewrite IH by done. done.
Qed.

Lemma count_of_empty w : count_of ∅ w = 0.
Proof. unfold count_of. by rewrite lookup_empty. Qed.

Lemma positive_empty : positive ∅.
Proof. intros w v. by rewrite lookup_empty. Qed.

Lemma positive_count_of m w : positive m → 0 ≤ count_of m w.
Proof.
  intros Hp. unfold count_of. destruct (m !! w) as [v|] eqn:E; simpl; [|done].
  specialize (Hp w v E). lia.
Qed.

Lemma positive_lookup m w :
  positive m → m !! w = if decide (count_of m w = 0) then None else Some (count_of m w).
Proof.
  intros Hp. unfold count_of. destruct (m !! w) as [v|] eqn:E; simpl.
  - specialize (Hp w v E). rewrite decide_False by lia. done.
  - done.
Qed.

(** Two dictionaries with positive counts are equal as soon as they count
    every word alike. *)
Lemma positive_ext m1 m2 :
  positive m1 → positive m2 →
  (∀ w, count_of m1 w = count_of m2 w) → m1 = m2.
Proof.
  intros H1 H2 Heq. apply map_eq. intros w.
  rewrite (positive_lookup m1), (positive_lookup m2) by done.
  by rewrite Heq.
Qed.

Lemma count_of_add_count w c m w' :
  count_of (add_count w c m) w'
  = count_of m w' + (if decide (w = w') then c else 0).
Proof.
  unfold count_of, add_count. rewrite lookup_insert.
  case_decide; simplify_eq; simpl; lia.
Qed.

Lemma positive_add_count w c m :
  positive m → 0 < c → positive (add_count w c m).
Proof.
  intros Hp Hc w' v. unfold add_count. rewrite lookup_insert.
  case_decide; [|by apply Hp].
  intros [= <-]. pose proof (positive_count_of m w Hp). unfold count_of in *. lia.
Qed.

Lemma add_count_comm w1 c1 w2 c2 m :
  add_count w1 c1 (add_count w2 c2 m) = add_count w2 c2 (add_count w1 c1 m).
Proof.
  unfold add_count. apply map_eq. intros w.
  rewrite !lookup_insert.
  repeat (case_decide; simplify_eq; simpl); try done; f_equal; lia.
Qed.

Section Pipeline.

Variable lower_other : list N → N → list N → list N.

Lemma count_words_spec (ws : list (list N)) m :
  (∀ w, count_of (foldl (λ counts word, add_count word 1 counts) m ws) w
        = count_of m w + occurrences w ws) ∧
  (positive m →
   positive (foldl (λ counts word, add_count word 1 counts) m ws)).
Proof.
  revert m. induction ws as [|x ws IH]; intros m; simpl.
  - split; [intros; lia|done].
  - destruct (IH (add_count x 1 m)) as [Hc Hp]. split.
    + intros w. rewrite Hc, count_of_add_count. lia.
    + intros Hm. apply Hp, positive_add_count; [done|lia].
Qed.

Lemma count_lines_spec lines m :
  (∀ w, count_of (count_lines lower_other m lines) w
        = count_of m w + occurrences w (tokens_of lower_other lines)) ∧
  (positive m → positive (count_lines lower_other m lines)).
Proof.
  revert m. unfold count_lines, tokens_of.
  induction lines as [|line lines IH]; intros m; simpl.
  - split; [intros; lia|done].
  - destruct (IH (count_line lower_other m line)) as [Hc Hp].
    destruct (count_words_spec (tokenize lower_other line) m) as [Hc1 Hp1].
    split.
    + intros w. rewrite Hc, occurrences_app. unfold count_line.
      rewrite Hc1. symmetry. apply Z.add_assoc.
    + intros Hm. apply Hp. unfold count_line. by apply Hp1.
Qed.

Lemma single_count lines w :
  count_of (single_threaded_wordcount lower_other lines) w
  = occurrences w (tokens_of lower_other lines).
Proof.
  unfold single_threaded_wordcount.
  rewrite (proj1 (count_lines_spec lines ∅)), count_of_empty. lia.
Qed.

Lemma single_positive lines :
  positive (single_threaded_wordcount lower_other lines).
Proof. apply count_lines_spec, positive_empty. Qed.

(** *** Reduce *)

Lemma reduce_keys_spec part_counts keys m :
  positive part_counts →
  (∀ w, count_of (reduce_keys part_counts m keys) w
        = count_of m w + occurrences w keys * count_of part_counts w) ∧
  (positive m → positive (reduce_keys part_counts m keys)).
Proof.
  intros Hpc. revert m. unfold reduce_keys.
  induction keys as [|k keys IH]; intros m; simpl.
  - split; [intros; lia|done].
  - destruct (part_counts !! k) as [v|] eqn:E.
    + assert (Hv : count_of part_counts k = v)
        by (unfold count_of; by rewrite E).
      destruct (IH (add_count k v m)) as [Hc Hp]. split.
      * intros w. rewrite Hc, count_of_add_count.
        case_decide; simplify_eq; lia.
      * intros Hm. apply Hp, positive_add_count; [done|by eapply Hpc].
    + assert (Hv : count_of part_counts k = 0)
        by (unfold count_of; by rewrite E).
      destruct (IH m) as [Hc Hp]. split; [|done].
      intros w. rewrite Hc. case_decide; simplify_eq; lia.
Qed.

Lemma reduce_loop_filled keys parts m :
  reduce_loop keys (Some <$> parts) m = Some (reduce_all keys parts m).
Proof.
  revert m. induction parts as [|pc parts IH]; intros m; simpl; [done|].
  apply IH.
Qed.

Lemma reduce_all_spec keys parts m :
  Forall positive parts →
  (∀ w, count_of (reduce_all keys parts m) w
        = count_of m w + occurrences w keys * total_of w parts) ∧
  (positive m → positive (reduce_all keys parts m)).
Proof.
  intros Hall. revert m. unfold reduce_all.
  induction Hall as [|pc parts Hpc Hall IH]; intros m; simpl.
  - split; [intros; lia|done].
  - destruct (IH (reduce_keys pc m keys)) as [Hc Hp].
    destruct (reduce_keys_spec pc keys m Hpc) as [Hc1 Hp1].
    split.
    + intros w. rewrite Hc, Hc1. lia.
    + intros Hm. by apply Hp, Hp1.
Qed.

(** *** Combine *)

Lemma merge_items_spec part_counts final_counts :
  (∀ w, count_of (merge_items part_counts final_counts) w
        = count_of final_counts w + count_of part_counts w) ∧
  (positive part_counts → positive final_counts →
   positive (merge_items part_counts final_counts)).
Proof.
  unfold merge_items.
  apply (map_fold_weak_ind
           (λ r (m : gmap (list N) Z),
              (∀ w, count_of r w = count_of final_counts w + count_of m w) ∧
              (positive m → positive final_counts → positive r))).
  - split; [|done]. intros w. rewrite count_of_empty. lia.
  - intros k x m r Hk [Hc Hp]. split.
    + intros w. rewrite count_of_add_count, Hc.
      unfold count_of at 4. rewrite lookup_insert.
      destruct (decide (k = w)) as [->|Hne]; simpl.
      * unfold count_of at 2. rewrite Hk. simpl. lia.
      * unfold count_of. lia.
    + intros Hm Hf. apply positive_add_count.
      * apply Hp; [|done]. intros w v Hw. apply (Hm w v).
        rewrite lookup_insert_ne; [done|]. intros ->. congruence.
      * apply (Hm k x). by rewrite lookup_insert_eq.
Qed.

Lemma combiner_task_spec reduced final_counts :
  Forall positive reduced →
  (∀ w, count_of (combiner_task (Some <$> reduced) final_counts) w
        = count_of final_counts w + total_of w reduced) ∧
  (positive final_counts →
   positive (combiner_task (Some <$> reduced) final_counts)).
Proof.
  intros Hall. revert final_counts.
  induction Hall as [|pc reduced Hpc Hall IH]; intros f; simpl.
  - split; [intros; lia|done].
  - destruct (IH (merge_items pc f)) as [Hc Hp].
    destruct (merge_items_spec pc f) as [Hc1 Hp1].
    split.
    + intros w. rewrite Hc, Hc1. lia.
    + intros Hf. by apply Hp, Hp1.
Qed.

End Pipeline.

(** ** Slot arrays after a phase *)

(** Threads that each assign their own slot leave the array holding the
    results in task order. *)
Lemma run_threads_fill {A B} (target : A → list (option B) → nat → list (option B))
    (g : A → B) (args : list A) (slots : list (option B)) (i : nat) :
  (∀ a s j, target a s j = <[j := Some (g a)]> s) →
  length slots = (i + length args)%nat →
  run_threads target i args slots = take i slots ++ (Some <$> (g <$> args)).
Proof.
  intros Htarget. revert slots i.
  induction args as [|a args IH]; intros slots i Hlen; simpl in *.
  - rewrite take_ge by lia. by rewrite app_nil_r.
  - rewrite IH by (rewrite Htarget, length_insert; lia).
    rewrite Htarget.
    rewrite (take_S_r _ _ (Some (g a)))
      by (apply list_lookup_insert_eq; lia).
    rewrite take_insert_ge by done.
    by rewrite <-app_assoc.
Qed.

Lemma run_threads_all {A B} (target : A → list (option B) → nat → list (option B))
    (g : A → B) (args : list A) :
  (∀ a s j, target a s j = <[j := Some (g a)]> s) →
  run_threads target 0 args (replicate (length args) None)
  = Some <$> (g <$> args).
Proof.
  intros Htarget.
  rewrite (run_threads_fill target g) by (done || by rewrite length_replicate).
  by rewrite take_0.
Qed.

Lemma total_of_absent w ms :
  (∀ m, m ∈ ms → m !! w = None) → total_of w ms = 0.
Proof.
  induction ms as [|m ms IH]; intros Hnone; simpl; [done|].
  rewrite IH by (intros m' ?; apply Hnone; by right).
  unfold count_of. rewrite (Hnone m) by left. done.
Qed.

Section Equivalence.

Variable lower_other : list N → N → list N → list N.

Lemma tokens_of_concat (parts : list (list (list N))) :
  tokens_of lower_other (concat parts)
  = concat (tokens_of lower_other <$> parts).
Proof.
  unfold tokens_of. induction parts as [|p parts IH]; csimpl; [done|].
  by rewrite fmap_app, concat_app, IH.
Qed.

(** The outputs of the Map phase count, together, the tokens of the
    partitioned lines. *)
Lemma map_outputs_total (w : list N) (parts : list (list (list N))) :
  total_of w (count_lines lower_other ∅ <$> parts)
  = occurrences w (tokens_of lower_other (concat parts)).
Proof.
  rewrite tokens_of_concat.
  induction parts as [|p parts IH]; csimpl; [done|].
  rewrite occurrences_app, IH.
  rewrite (proj1 (count_lines_spec lower_other p ∅)), count_of_empty. lia.
Qed.

Lemma map_outputs_positive (parts : list (list (list N))) :
  Forall positive (count_lines lower_other ∅ <$> parts).
Proof.
  apply Forall_fmap, Forall_forall. intros p _.
  apply count_lines_spec, positive_empty.
Qed.

Lemma shuffle_filled (ms : list (gmap (list N) Z)) (U : gset (list N)) :
  ∃ U', shuffle (Some <$> ms) U = Ok U' ∧
        ∀ w, w ∈ U' ↔ w ∈ U ∨ ∃ m, m ∈ ms ∧ w ∈ dom m.
Proof.
  revert U. induction ms as [|m ms IH]; intros U; csimpl.
  - exists U. split; [done|]. intros w. split; [auto|].
    intros [?|(m & Hm & _)]; [done|]. by apply elem_of_nil in Hm.
  - destruct (IH (U ∪ dom m)) as (U' & -> & HU'). exists U'. split; [done|].
    intros w. rewrite HU', elem_of_union. split.
    + intros [[?|?]|(m' & ? & ?)]; [by left| |].
      * right. exists m. split; [left|done].
      * right. exists m'. split; [by right|done].
    + intros [?|(m' & [->|?]%elem_of_cons & ?)]; [by left; left|by left; right|].
      right. by exists m'.
Qed.

(** What all the key groups sum to, per word. *)
Lemma reduce_outputs_total (w : list N) (ms : list (gmap (list N) Z))
    (groups : list (list (list N))) :
  Forall positive ms →
  total_of w ((λ keys, reduce_all keys ms ∅) <$> groups)
  = occurrences w (concat groups) * total_of w ms.
Proof.
  intros Hms. induction groups as [|g groups IH]; csimpl; [done|].
  rewrite occurrences_app, IH.
  rewrite (proj1 (reduce_all_spec g ms ∅ Hms)), count_of_empty. lia.
Qed.

Lemma reduce_outputs_positive (ms : list (gmap (list N) Z))
    (groups : list (list (list N))) :
  Forall positive ms →
  Forall positive ((λ keys, reduce_all keys ms ∅) <$> groups).
Proof.
  intros Hms. apply Forall_fmap, Forall_forall. intros g _.
  apply reduce_all_spec; [done|apply positive_empty].
Qed.

End Equivalence.

Section Orchestrator.

Variable lower_other : list N → N → list N → list N.

Lemma floordiv_nonzero a b : b ≠ 0 → floordiv a b = Ok (a `div` b).
Proof. intros Hb. unfold floordiv. by rewrite decide_False. Qed.

Lemma sorted_elements (U : gset (list N)) :
  NoDup (sorted (elements U)) ∧ ∀ w, w ∈ sorted (elements U) ↔ w ∈ U.
Proof.
  unfold sorted. split.
  - rewrite merge_sort_Permutation. apply NoDup_elements.
  - intros w. rewrite merge_sort_Permutation. apply elem_of_elements.
Qed.

(** On a positive thread count no phase raises, every slot gets filled,
    and the call amounts to: partition, count each chunk, split the sorted
    keys, reduce each group, merge. *)
Lemma multi_threaded_unfold lines n :
  1 ≤ n →
  ∃ (parts groups : list (list (list N))),
    let ms := count_lines lower_other ∅ <$> parts in
    concat parts = lines ∧
    NoDup (concat groups) ∧
    (∀ w, w ∈ concat groups ↔ ∃ m, m ∈ ms ∧ w ∈ dom m) ∧
    multi_threaded_wordcount lower_other lines n
    = Ok (combiner_task
            (Some <$> ((λ keys, reduce_all keys ms ∅) <$> groups)) ∅).
Proof.
  intros Hn. unfold multi_threaded_wordcount.
  rewrite floordiv_nonzero by lia. cbn [mbind result_bind].
  destruct (chunks_floor lines n Hn) as (_ & _ & ->).
  set (parts := split_at _ _ lines).
  assert (Hlen : Z.to_nat n = length parts).
  { unfold parts. rewrite split_at_length. lia. }
  rewrite Hlen.
  rewrite (run_threads_all (map_task lower_other)
             (count_lines lower_other ∅)) by done.
  set (ms := count_lines lower_other ∅ <$> parts).
  destruct (shuffle_filled ms ∅) as (U & -> & HU). cbn [mbind result_bind].
  rewrite floordiv_nonzero by lia. cbn [mbind result_bind].
  destruct (chunks_floor (sorted (elements U)) n Hn) as (_ & _ & ->).
  set (groups := split_at _ _ (sorted (elements U))).
  assert (Hglen : length parts = length groups).
  { unfold groups. rewrite split_at_length. lia. }
  rewrite Hglen.
  rewrite (run_threads_all _ (λ keys, reduce_all keys ms ∅)).
  2:{ intros keys s j. unfold reduce_task.
      by rewrite reduce_loop_filled. }
  exists parts, groups. cbn zeta. fold ms.
  assert (Hcat : concat groups = sorted (elements U))
    by apply split_at_concat.
  split_and!.
  - apply split_at_concat.
  - rewrite Hcat. apply sorted_elements.
  - intros w. rewrite Hcat, (proj2 (sorted_elements U)), HU.
    rewrite elem_of_empty. split; [intros [[]|?]; done|by right].
  - done.
Qed.

Lemma multi_threaded_equiv lines n :
  1 ≤ n →
  multi_threaded_wordcount lower_other lines n
  = Ok (single_threaded_wordcount lower_other lines).
Proof.
  intros Hn.
  destruct (multi_threaded_unfold lines n Hn)
    as (parts & groups & Hparts & Hnd & Hkeys & ->).
  cbn zeta in Hkeys.
  set (ms := count_lines lower_other ∅ <$> parts) in *.
  assert (Hms : Forall positive ms) by apply map_outputs_positive.
  pose proof (reduce_outputs_positive ms groups Hms) as Hrs.
  f_equal. apply positive_ext.
  - by apply combiner_task_spec, positive_empty.
  - apply single_positive.
  - intros w.
    rewrite (proj1 (combiner_task_spec _ ∅ Hrs)), count_of_empty.
    rewrite reduce_outputs_total by done.
    rewrite single_count, <-Hparts, <-map_outputs_total. fold ms.
    destruct (decide (w ∈ concat groups)) as [Hin|Hout].
    + rewrite occurrences_NoDup by done. lia.
    + rewrite (total_of_absent w ms); [lia|].
      intros m Hm. apply not_elem_of_dom. intros Hd.
      apply Hout, Hkeys. eauto.
Qed.

End Orchestrator.

(** ** Order of processing *)

Lemma reduce_step_comm pc1 pc2 k1 k2 m :
  reduce_step pc1 (reduce_step pc2 m k2) k1
  = reduce_step pc2 (reduce_step pc1 m k1) k2.
Proof.
  unfold reduce_step.
  destruct (pc1 !! k1), (pc2 !! k2); try done. apply add_count_comm.
Qed.

Lemma reduce_keys_step pc1 pc2 k keys m :
  reduce_keys pc1 (reduce_step pc2 m k) keys
  = reduce_step pc2 (reduce_keys pc1 m keys) k.
Proof.
  revert m. unfold reduce_keys.
  induction keys as [|k' keys IH]; intros m; simpl; [done|].
  rewrite <-IH. f_equal. apply (reduce_step_comm pc1 pc2 k' k m).
Qed.

Lemma reduce_keys_comm pc1 pc2 keys1 keys2 m :
  reduce_keys pc1 (reduce_keys pc2 m keys2) keys1
  = reduce_keys pc2 (reduce_keys pc1 m keys1) keys2.
Proof.
  revert m. induction keys2 as [|k keys2 IH]; intros m; [done|].
  change (reduce_keys pc2 m (k :: keys2))
    with (reduce_keys pc2 (reduce_step pc2 m k) keys2).
  change (reduce_keys pc2 (reduce_keys pc1 m keys1) (k :: keys2))
    with (reduce_keys pc2 (reduce_step pc2 (reduce_keys pc1 m keys1) k) keys2).
  by rewrite IH, reduce_keys_step.
Qed.

Lemma reduce_all_Permutation keys ms ms' m :
  ms ≡ₚ ms' → reduce_all keys ms m = reduce_all keys ms' m.
Proof.
  intros Hperm. revert m. unfold reduce_all.
  induction Hperm as [|pc ms ms' _ IH|pc1 pc2 ms|ms1 ms2 ms3 _ IH1 _ IH2];
    intros m; simpl.
  - done.
  - apply IH.
  - f_equal. apply reduce_keys_comm.
  - by rewrite IH1.
Qed.

Lemma merge_items_add_count pc k v m :
  merge_items pc (add_count k v m) = add_count k v (merge_items pc m).
Proof.
  unfold merge_items. apply (map_fold_comm_acc _ (add_count k v)).
  intros j z y. apply add_count_comm.
Qed.

Lemma merge_items_comm pc1 pc2 m :
  merge_items pc1 (merge_items pc2 m) = merge_items pc2 (merge_items pc1 m).
Proof.
  unfold merge_items at 1 4.
  apply (map_fold_comm_acc _ (merge_items pc2)).
  intros j z y. symmetry. apply merge_items_add_count.
Qed.

Lemma combiner_task_Permutation rs rs' m :
  rs ≡ₚ rs' →
  combiner_task (Some <$> rs) m = combiner_task (Some <$> rs') m.
Proof.
  intros Hperm. revert m.
  induction Hperm as [|pc rs rs' _ IH|pc1 pc2 rs|rs1 rs2 rs3 _ IH1 _ IH2];
    intros m; csimpl.
  - done.
  - apply IH.
  - f_equal. apply merge_items_comm.
  - by rewrite IH1.
Qed.

(** ** Sum of the counts *)

Lemma sum_values_insert_fresh k v m :
  m !! k = None → sum_values (<[k := v]> m) = v + sum_values m.
Proof.
  intros Hk. unfold sum_values.
  rewrite map_fold_insert_L; [done| |done]. intros. lia.
Qed.

Lemma sum_values_insert k v m :
  sum_values (<[k := v]> m) = sum_values m - count_of m k + v.
Proof.
  unfold count_of. destruct (m !! k) as [v0|] eqn:E; simpl.
  - rewrite <-(insert_delete_eq m k v).
    rewrite <-(insert_delete_id m k v0) at 2 by done.
    rewrite !sum_values_insert_fresh by apply lookup_delete_eq. lia.
  - rewrite sum_values_insert_fresh by done. lia.
Qed.

Lemma sum_values_add_count w c m :
  sum_values (add_count w c m) = sum_values m + c.
Proof. unfold add_count. rewrite sum_values_insert. unfold count_of. lia. Qed.

Lemma sum_values_count_words (ws : list (list N)) m :
  sum_values (foldl (λ counts word, add_count word 1 counts) m ws)
  = sum_values m + Z.of_nat (length ws).
Proof.
  revert m. induction ws as [|w ws IH]; intros m; simpl; [lia|].
  rewrite IH, sum_values_add_count. lia.
Qed.

Lemma sum_values_count_lines lower_other lines m :
  sum_values (count_lines lower_other m lines)
  = sum_values m + Z.of_nat (length (tokens_of lower_other lines)).
Proof.
  revert m. unfold count_lines, tokens_of.
  induction lines as [|line lines IH]; intros m; csimpl; [lia|].
  rewrite IH. unfold count_line. rewrite sum_values_count_words.
  rewrite length_app. lia.
Qed.

(** ** The tokenizer *)

Lemma findall_run_tokens p cur s t :
  (∀ c, c ∈ cur → p c = true) →
  t ∈ findall_run p cur s →
  t ≠ [] ∧ ∀ c, c ∈ t → p c = true ∧ (c ∈ cur ∨ c ∈ s).
Proof.
  revert cur. induction s as [|x s IH]; intros cur Hcur; simpl.
  - destruct cur as [|y cur]; [by rewrite elem_of_nil|].
    rewrite list_elem_of_singleton. intros ->. split.
    + rewrite reverse_cons. by destruct (reverse cur).
    + intros c Hc. rewrite elem_of_reverse in Hc.
      split; [by apply Hcur|by left].
  - destruct (p x) eqn:Hpx.
    + intros Ht. destruct (IH (x :: cur)) as [Hne Hall]; [|done|].
      { intros c [->|?]%elem_of_cons; [done|by apply Hcur]. }
      split; [done|]. intros c Hc. destruct (Hall c Hc) as [? Hin].
      split; [done|]. rewrite elem_of_cons in Hin. rewrite elem_of_cons.
      tauto.
    + assert (Hrest : t ∈ findall_run p [] s →
                t ≠ [] ∧ ∀ c, c ∈ t → p c = true ∧ (c ∈ cur ∨ c ∈ x :: s)).
      { intros Ht. destruct (IH []) as [Hne Hall]; [|done|].
        { intros c. by rewrite elem_of_nil. }
        split; [done|]. intros c Hc. destruct (Hall c Hc) as [? [Hin|Hin]].
        - by apply elem_of_nil in Hin.
        - split; [done|]. right. by right. }
      destruct cur as [|y cur]; [done|].
      rewrite elem_of_cons. intros [->|Ht]; [|by apply Hrest].
      split.
      * rewrite reverse_cons. by destruct (reverse cur).
      * intros c Hc. rewrite elem_of_reverse in Hc.
      split; [by apply Hcur|by left].
Qed.

Lemma findall_run_whole p cur s :
  (∀ c, c ∈ s → p c = true) →
  findall_run p cur s
  = match reverse cur ++ s with [] => [] | _ :: _ => [reverse cur ++ s] end.
Proof.
  revert cur. induction s as [|x s IH]; intros cur Hs; simpl.
  - rewrite app_nil_r. destruct cur as [|y cur]; [done|].
    rewrite reverse_cons. by destruct (reverse cur).
  - rewrite (Hs x) by left.
    rewrite IH by (intros c ?; apply Hs; by right).
    rewrite reverse_cons. by rewrite <-app_assoc.
Qed.

(** A non-empty string made of characters of the class is its own single
    match. *)
Lemma findall_whole p t :
  t ≠ [] → (∀ c, c ∈ t → p c = true) → findall p t = [t].
Proof.
  intros Hne Ht. unfold findall. rewrite findall_run_whole by done.
  simpl. by destruct t.
Qed.

Lemma findall_tokens p s t :
  t ∈ findall p s → t ≠ [] ∧ ∀ c, c ∈ t → p c = true ∧ c ∈ s.
Proof.
  intros Ht. destruct (findall_run_tokens p [] s t) as [Hne Hall]; [|done|].
  { intros c. by rewrite elem_of_nil. }
  split; [done|]. intros c Hc. destruct (Hall c Hc) as [? [Hin|?]]; [|done].
  by apply elem_of_nil in Hin.
Qed.

Section Lowercase.

Variable lower_other : list N → N → list N → list N.

(** Lowercasing a lowercased code point changes nothing, wherever it
    stands, which Unicode guarantees; only the code points from 128 on are in
    question. *)
Hypothesis lower_other_stable :
  ∀ before c after d,
    (128 ≤ c)%N → d ∈ lower_other before c after →
    ∀ before' after', lower_char lower_other before' d after' = [d].

Lemma lower_char_stable before c after d :
  d ∈ lower_char lower_other before c after →
  ∀ before' after', lower_char lower_other before' d after' = [d].
Proof.
  unfold lower_char at 1.
  destruct (is_ascii_upper c) eqn:Hup.
  - rewrite list_elem_of_singleton. intros -> before' after'.
    unfold lower_char, is_ascii_upper in *.
    apply andb_true_iff in Hup as [H1%N.leb_le H2%N.leb_le].
    replace (65 <=? c + 32)%N with true by (symmetry; apply N.leb_le; lia).
    replace (c + 32 <=? 90)%N with false by (symmetry; apply N.leb_gt; lia).
    simpl.
    by replace (c + 32 <? 128)%N with true by (symmetry; apply N.ltb_lt; lia).
  - destruct (c <? 128)%N eqn:Hlt.
    + rewrite list_elem_of_singleton. intros -> before' after'.
      unfold lower_char. by rewrite Hup, Hlt.
    + intros Hd. apply (lower_other_stable before c after); [|done].
      by apply N.ltb_ge.
Qed.

Lemma lower_from_fixed (before t : list N) :
  (∀ d, d ∈ t → ∀ before' after', lower_char lower_other before' d after' = [d]) →
  lower_from lower_other before t = t.
Proof.
  revert before. induction t as [|d t IH]; intros before Ht; simpl; [done|].
  rewrite (Ht d) by left. simpl. f_equal. apply IH.
  intros d' ?. apply Ht. by right.
Qed.

Lemma elem_of_lower_from d before s :
  d ∈ lower_from lower_other before s →
  ∃ before' c after', c ∈ s ∧ d ∈ lower_char lower_other before' c after'.
Proof.
  revert before. induction s as [|c s IH]; intros before; simpl.
  - by rewrite elem_of_nil.
  - rewrite elem_of_app. intros [Hd|Hd].
    + exists before, c, s. split; [left|done].
    + destruct (IH _ Hd) as (b' & c' & a' & Hc' & Hd').
      exists b', c', a'. split; [by right|done].
Qed.

(** Whatever the character class, a match found in lowercased text
    tokenizes to itself. *)
Lemma retokenize p text t :
  t ∈ findall p (lower lower_other text) →
  findall p (lower lower_other t) = [t].
Proof.
  intros [Hne Hall]%findall_tokens.
  unfold lower. rewrite lower_from_fixed.
  - apply findall_whole; [done|]. intros c Hc. by apply Hall.
  - intros d Hd.
    destruct (Hall d Hd) as [_ (b & c & a & _ & Hc)%elem_of_lower_from].
    by apply (lower_char_stable b c a).
Qed.

Lemma retokenize_all p text :
  concat ((λ t, findall p (lower lower_other t))
            <$> findall p (lower lower_other text))
  = findall p (lower lower_other text).
Proof.
  assert (Hall : ∀ t, t ∈ findall p (lower lower_other text) →
                      findall p (lower lower_other t) = [t])
    by (intros t; apply retokenize).
  induction (findall p (lower lower_other text)) as [|t ts IH]; csimpl; [done|].
  rewrite (Hall t) by left. simpl. f_equal. apply IH.
  intros t' ?. apply Hall. by right.
Qed.

End Lowercase.

(** ** The descending sort of the combiner *)

Lemma insert_desc_Permutation kv l : insert_desc kv l ≡ₚ kv :: l.
Proof.
  induction l as [|kv' l IH]; simpl; [done|].
  case_decide; [done|]. rewrite IH. apply Permutation_swap.
Qed.

Lemma sorted_by_count_desc_Permutation items :
  sorted_by_count_desc items ≡ₚ items.
Proof.
  unfold sorted_by_count_desc. induction items as [|kv items IH]; simpl; [done|].
  by rewrite insert_desc_Permutation, IH.
Qed.

Lemma insert_desc_sorted kv l :
  StronglySorted count_ge l → StronglySorted count_ge (insert_desc kv l).
Proof.
  induction 1 as [|kv' l Hs IH Hall]; simpl.
  - repeat constructor.
  - case_decide as Hle.
    + constructor; [by constructor|]. constructor; [done|].
      eapply Forall_impl; [exact Hall|]. unfold count_ge. intros; simpl in *; lia.
    + constructor; [done|]. rewrite insert_desc_Permutation.
      constructor; [unfold count_ge; lia|done].
Qed.

Lemma sorted_by_count_desc_sorted items :
  StronglySorted count_ge (sorted_by_count_desc items).
Proof.
  unfold sorted_by_count_desc. induction items as [|kv items IH]; simpl.
  - constructor.
  - by apply insert_desc_sorted.
Qed.

Lemma insert_desc_stable c kv l :
  with_count c (insert_desc kv l) = with_count c (kv :: l).
Proof.
  unfold with_count. induction l as [|kv' l IH]; simpl; [done|].
  case_decide as Hle; [done|].
  rewrite (filter_cons _ kv'), IH, !(filter_cons _ kv), (filter_cons _ kv').
  repeat case_decide; try done; lia.
Qed.

Lemma sorted_by_count_desc_stable c items :
  with_count c (sorted_by_count_desc items) = with_count c items.
Proof.
  unfold sorted_by_count_desc. induction items as [|kv items IH]; simpl; [done|].
  rewrite insert_desc_stable. unfold with_count in *.
  by rewrite !(filter_cons _ kv), IH.
Qed.

(** Descending order and stability leave one outcome only, so any stable
    sort computes what [sorted_by_count_desc] computes. *)
Lemma stable_sort_unique (out out' : list (list N * Z)) :
  StronglySorted count_ge out → StronglySorted count_ge out' →
  (∀ c, with_count c out = with_count c out') → out = out'.
Proof.
  intros Hs. revert out'.
  induction Hs as [|x r Hr IH Hx]; intros out' Hs' Heq.
  - destruct out' as [|y r']; [done|].
    specialize (Heq y.2). unfold with_count in Heq.
    rewrite filter_cons_True in Heq by done. done.
  - destruct Hs' as [|y r' Hr' Hy].
    { specialize (Heq x.2). unfold with_count in Heq.
      rewrite filter_cons_True in Heq by done. done. }
    assert (Hyx : y.2 ≤ x.2).
    { assert (Hin : y ∈ with_count y.2 (x :: r)).
      { rewrite Heq. unfold with_count. rewrite filter_cons_True by done. left. }
      apply list_elem_of_filter in Hin as [_ [->|Hin]%elem_of_cons]; [done|].
      rewrite Forall_forall in Hx. by apply Hx. }
    assert (Hxy : x.2 ≤ y.2).
    { assert (Hin : x ∈ with_count x.2 (y :: r')).
      { rewrite <-Heq. unfold with_count. rewrite filter_cons_True by done. left. }
      apply list_elem_of_filter in Hin as [_ [->|Hin]%elem_of_cons]; [done|].
      rewrite Forall_forall in Hy. by apply Hy. }
    assert (x = y) as ->.
    { specialize (Heq x.2). unfold with_count in Heq.
      rewrite filter_cons_True in Heq by done.
      rewrite filter_cons_True in Heq by lia. by injection Heq. }
    f_equal. apply IH; [done|]. intros c. specialize (Heq c).
    unfold with_count in *. rewrite !(filter_cons _ y) in Heq.
    case_decide; [by injection Heq|done].
Qed.

(** ** The chunks of wordcount_mt.py *)

Lemma uniform_chunks_concat {A} (xs : list A) (sz m : nat) :
  concat ((λ i, take sz (drop (i * sz) xs)) <$> seq 0 m) = take (m * sz) xs.
Proof.
  induction m as [|m IH]; [done|].
  rewrite seq_S, fmap_app, concat_app, IH. simpl.
  rewrite app_nil_r, take_take_drop. f_equal. lia.
Qed.

Lemma mt_chunks_nat {A} (lines : list A) (sz m : nat) :
  mt_chunks lines (Z.of_nat sz) (Z.of_nat m)
  = (λ i, take sz (drop (i * sz) lines)) <$> seq 0 m.
Proof.
  unfold mt_chunks, range. rewrite Nat2Z.id, <-list_fmap_compose.
  apply list_fmap_ext. intros _ i _. simpl.
  replace (Z.of_nat i * Z.of_nat sz) with (Z.of_nat (i * sz)) by lia.
  replace ((Z.of_nat i + 1) * Z.of_nat sz)
    with (Z.of_nat (i * sz + sz)) by lia.
  rewrite py_slice_nat. f_equal. lia.
Qed.

(** The Map chunks of [multithreaded_count] on a positive thread count, with
    [chunk_size = (len(lines) + num_threads - 1) // num_threads]. *)
Lemma mt_chunks_ceil {A} (lines : list A) (n : Z) :
  1 ≤ n →
  ∃ sz : nat,
    (Z.of_nat (length lines) + n - 1) `div` n = Z.of_nat sz ∧
    (length lines ≤ Z.to_nat n * sz)%nat ∧
    (length lines = 0%nat → sz = 0%nat) ∧
    mt_chunks lines ((Z.of_nat (length lines) + n - 1) `div` n) n
    = (λ i, take sz (drop (i * sz) lines)) <$> seq 0 (Z.to_nat n).
Proof.
  intros Hn.
  set (q := (Z.of_nat (length lines) + n - 1) `div` n).
  assert (Hq0 : 0 ≤ q) by (apply Z.div_pos; lia).
  assert (Hq1 : Z.of_nat (length lines) ≤ n * q).
  { pose proof (Z.mul_succ_div_gt (Z.of_nat (length lines) + n - 1) n) as Hgt.
    fold q in Hgt. lia. }
  assert (Hq2 : length lines = 0%nat → q = 0).
  { intros Hl. unfold q. rewrite Hl. apply Z.div_small. lia. }
  exists (Z.to_nat q). split_and!; [lia|nia|lia|].
  rewrite <-(Z2Nat.id q) at 1 by done.
  rewrite <-(Z2Nat.id n) at 1 by lia.
  apply mt_chunks_nat.
Qed.

(** ** wordcount_mt.py on the empty line sequence *)

Lemma foldl_MapThread_run lower_other is_word_other chunks acc :
  foldl (λ acc chunk, MapThread_run lower_other is_word_other chunk acc)
    acc chunks
  = acc ++ ((λ chunk, Counter (tokenize_w lower_other is_word_other
                                 (join [10%N] chunk))) <$> chunks).
Proof.
  revert acc. induction chunks as [|ch chunks IH]; intros acc; csimpl.
  - by rewrite app_nil_r.
  - rewrite IH. unfold MapThread_run. by rewrite <-app_assoc.
Qed.

Lemma union_list_dom_empty (ms : list (gmap (list N) Z)) :
  (∀ m, m ∈ ms → m = ∅) → ⋃ (dom <$> ms) = (∅ : gset (list N)).
Proof.
  induction ms as [|m ms IH]; intros Hall; csimpl; [done|].
  rewrite (Hall m) by left.
  rewrite dom_empty_L, IH by (intros; apply Hall; by right).
  by rewrite (left_id_L ∅ (∪)).
Qed.

(** Without lines every Map thread counts nothing, there is no key to
    reduce, and the combiner has nothing to sort. *)
Lemma mt_empty_lines lower_other is_word_other (n : Z) :
  1 ≤ n →
  single_thread_count lower_other is_word_other [] = ∅ ∧
  multithreaded_count lower_other is_word_other [] n = Ok [].
Proof.
  intros Hn. split; [done|].
  unfold multithreaded_count.
  rewrite floordiv_nonzero by lia. cbn [mbind result_bind].
  destruct (mt_chunks_ceil (@nil (list N)) n Hn) as (sz & _ & _ & _ & ->).
  rewrite foldl_MapThread_run, app_nil_l, <-list_fmap_compose.
  set (pm := _ <$> seq 0 (Z.to_nat n)).
  assert (Hpm : ∀ m, m ∈ pm → m = ∅).
  { intros m (i & -> & _)%list_elem_of_fmap. simpl.
    by rewrite drop_nil, take_nil. }
  assert (Hkeys : match pm with [] => ∅ | _ => ⋃ (dom <$> pm) end
                  = (∅ : gset (list N))).
  { destruct pm eqn:E; [done|]. rewrite <-E in *.
    by apply union_list_dom_empty. }
  rewrite Hkeys, elements_empty. done.
Qed.

(** The Map chunks of [multithreaded_count]: as many as threads, and
    together the line sequence. *)
Lemma mt_chunks_exact {A} (lines : list A) (n : Z) :
  1 ≤ n →
  let parts :=
    mt_chunks lines ((Z.of_nat (length lines) + n - 1) `div` n) n in
  length parts = Z.to_nat n ∧ concat parts = lines.
Proof.
  intros Hn. cbn zeta.
  destruct (mt_chunks_ceil lines n Hn) as (sz & _ & Hge & _ & ->).
  split.
  - by rewrite length_fmap, length_seq.
  - rewrite uniform_chunks_concat. by apply take_ge.
Qed.

(** ** Thread schedules *)

(** Two Map tasks, or two Reduce tasks, with distinct slots commute, so the
    order in which the threads of a phase reach their assignment does not
    show in the slot array. *)
Lemma map_tasks_commute lower_other part1 part2 intermediate i j :
  i ≠ j →
  map_task lower_other part1 (map_task lower_other part2 intermediate j) i
  = map_task lower_other part2 (map_task lower_other part1 intermediate i) j.
Proof. intros Hij. unfold map_task. by apply list_insert_insert_ne. Qed.

Lemma reduce_tasks_commute keys1 keys2 intermediate reduced i j :
  i ≠ j →
  reduce_task keys1 intermediate (reduce_task keys2 intermediate reduced j) i
  = reduce_task keys2 intermediate (reduce_task keys1 intermediate reduced i) j.
Proof.
  intros Hij. unfold reduce_task.
  destruct (reduce_loop keys1 intermediate ∅),
    (reduce_loop keys2 intermediate ∅); try done.
  by apply list_insert_insert_ne.
Qed.

(** ** Small cases *)

Lemma split_at_small {A} (m : nat) (xs : list A) :
  split_at 0 m xs = replicate m [] ++ [xs].
Proof.
  induction m as [|m IH]; simpl; [done|]. rewrite take_0. f_equal. apply IH.
Qed.

Lemma length_concat_sum {A} (ls : list (list A)) :
  length (concat ls) = sum_list_with length ls.
Proof.
  induction ls as [|l ls IH]; simpl; [done|]. by rewrite length_app, IH.
Qed.

Lemma multi_threaded_negative lower_other lines n :
  n ≤ -1 → multi_threaded_wordcount lower_other lines n = Ok ∅.
Proof.
  intros Hn. unfold multi_threaded_wordcount.
  rewrite floordiv_nonzero by lia. cbn [mbind result_bind].
  unfold chunks, range. replace (Z.to_nat n) with 0%nat by lia. simpl.
  rewrite elements_empty. simpl.
  rewrite floordiv_nonzero by lia. done.
Qed.

Lemma multi_threaded_zero lower_other lines :
  multi_threaded_wordcount lower_other lines 0 = Raise ZeroDivisionError.
Proof. done. Qed.

Lemma single_no_tokens lower_other lines :
  tokens_of lower_other lines = [] →
  single_threaded_wordcount lower_other lines = ∅.
Proof.
  intros Hnone. apply positive_ext.
  - apply single_positive.
  - apply positive_empty.
  - intros w. by rewrite single_count, Hnone, count_of_empty.
Qed.

Lemma lower_id_stable before c after d :
  (128 ≤ c)%N → d ∈ lower_id before c after →
  ∀ before' after', lower_char lower_id before' d after' = [d].
Proof.
  intros Hc ->%list_elem_of_singleton before' after'.
  unfold lower_char, is_ascii_upper.
  replace (c <=? 90)%N with false by (symmetry; apply N.leb_gt; lia).
  rewrite andb_false_r.
  by replace (c <? 128)%N with false by (symmetry; apply N.ltb_ge; lia).
Qed.

(** * The claims *)

(** C1. On every line sequence and every thread count from 1 on, which
    includes 1, 2, 3, 7 and 100, [multi_threaded_wordcount] returns without
    raising, and its mapping is the one [single_threaded_wordcount] returns
    on the same lines. *)
Theorem multi_equals_single lower_other (lines : list (list N)) (n : Z) :
  1 ≤ n →
  multi_threaded_wordcount lower_other lines n
  = Ok (single_threaded_wordcount lower_other lines).
Proof. apply multi_threaded_equiv. Qed.

Lemma multi_equals_single_witness :
  1 ≤ 7 ∧
  multi_threaded_wordcount lower_id
    [str "The quick fox"; str "the QUICK brown fox"] 7
  = Ok (single_threaded_wordcount lower_id
          [str "The quick fox"; str "the QUICK brown fox"]).
Proof. split; [lia|]. apply multi_equals_single. lia. Defined.

(** C5. On every input and every thread count from 1 on, the values of the
    final mapping returned by [multi_threaded_wordcount] sum to the number of
    tokens the tokenizer extracts from the input. *)
Theorem count_conservation lower_other (lines : list (list N)) (n : Z) :
  1 ≤ n →
  ∃ final_counts,
    multi_threaded_wordcount lower_other lines n = Ok final_counts ∧
    sum_values final_counts
    = Z.of_nat (length (tokens_of lower_other lines)).
Proof.
  intros Hn. eexists. split; [by apply multi_threaded_equiv|].
  unfold single_threaded_wordcount. rewrite sum_values_count_lines.
  unfold sum_values. rewrite map_fold_empty. lia.
Qed.

Lemma count_conservation_witness :
  1 ≤ 2 ∧
  ∃ final_counts,
    multi_threaded_wordcount lower_id
      [str "The quick fox"; str "the QUICK brown fox"] 2 = Ok final_counts ∧
    sum_values final_counts
    = Z.of_nat (length (tokens_of lower_id
                          [str "The quick fox"; str "the QUICK brown fox"])).
Proof. split; [lia|]. apply count_conservation. lia. Defined.

(** C8. On an input without tokens, so in particular on the empty line
    sequence, and for every thread count from 1 on, both
    [single_threaded_wordcount] and [multi_threaded_wordcount] return the
    empty mapping, and the latter does not raise.  On the empty line
    sequence the same holds of [single_thread_count] and
    [multithreaded_count] of wordcount_mt.py. *)
Theorem empty_input_empty_mapping
    (lower_other : list N → N → list N → list N)
    (is_word_other : N → bool) (lines : list (list N)) (n : Z) :
  1 ≤ n →
  tokens_of lower_other lines = [] →
  (single_threaded_wordcount lower_other lines = ∅ ∧
   multi_threaded_wordcount lower_other lines n = Ok ∅) ∧
  (single_threaded_wordcount lower_other [] = ∅ ∧
   multi_threaded_wordcount lower_other [] n = Ok ∅) ∧
  (single_thread_count lower_other is_word_other [] = ∅ ∧
   multithreaded_count lower_other is_word_other [] n = Ok []).
Proof.
  intros Hn Hnone. split_and!.
  - by apply single_no_tokens.
  - rewrite multi_threaded_equiv by done. f_equal. by apply single_no_tokens.
  - done.
  - by rewrite multi_threaded_equiv.
  - done.
  - by apply mt_empty_lines.
Qed.

Lemma empty_input_empty_mapping_witness :
  1 ≤ 3 ∧
  tokens_of lower_id [str "12 + 34"; str "--"] = [] ∧
  (single_threaded_wordcount lower_id [str "12 + 34"; str "--"] = ∅ ∧
   multi_threaded_wordcount lower_id [str "12 + 34"; str "--"] 3 = Ok ∅) ∧
  (single_threaded_wordcount lower_id [] = ∅ ∧
   multi_threaded_wordcount lower_id [] 3 = Ok ∅) ∧
  (single_thread_count lower_id (λ _, false) [] = ∅ ∧
   multithreaded_count lower_id (λ _, false) [] 3 = Ok []).
Proof.
  split; [lia|]. split; [reflexivity|].
  apply empty_input_empty_mapping; [lia|reflexivity].
Defined.

(** C10. On every line sequence and every thread count of -1 or less,
    [multi_threaded_wordcount] raises nothing and returns the empty mapping:
    the comprehensions over [range(num_threads)] are empty, no task is
    started, and the input is dropped. *)
Theorem negative_threads_drop_input lower_other (lines : list (list N)) (n : Z) :
  n ≤ -1 → multi_threaded_wordcount lower_other lines n = Ok ∅.
Proof. apply multi_threaded_negative. Qed.

Lemma negative_threads_drop_input_witness :
  -4 ≤ -1 ∧
  multi_threaded_wordcount lower_id
    [str "The quick fox"; str "the QUICK brown fox"] (-4) = Ok ∅.
Proof. split; [lia|]. apply negative_threads_drop_input. lia. Defined.

(** The partitioner of [multi_threaded_wordcount] on a positive thread
    count. *)
Lemma chunks_exact {A} (lines : list A) (n : Z) :
  1 ≤ n →
  let total := Z.of_nat (length lines) in
  let size := total `div` n in
  let parts := chunks lines size total n in
  length parts = Z.to_nat n ∧
  concat parts = lines ∧
  sum_list_with length parts = length lines ∧
  (∀ i chunk, parts !! i = Some chunk →
     chunk = take (length chunk) (drop (i * Z.to_nat size) lines) ∧
     Z.of_nat (length chunk)
     = if decide (i < Z.to_nat n - 1)%nat then size
       else size + total `mod` n) ∧
  (∀ i j ci cj, (i < j)%nat → parts !! i = Some ci → parts !! j = Some cj →
     (i * Z.to_nat size + length ci ≤ j * Z.to_nat size)%nat).
Proof.
  intros Hn total size parts.
  destruct (chunks_floor lines n Hn) as (Hsize & Hle & Hparts).
  fold total in Hsize, Hparts. fold size in Hsize, Hparts. fold parts in Hparts.
  set (sz := (length lines / Z.to_nat n)%nat) in *.
  assert (Hsz : Z.to_nat size = sz) by lia.
  assert (Hlen : length parts = Z.to_nat n).
  { rewrite Hparts, split_at_length. lia. }
  assert (Hcat : concat parts = lines).
  { rewrite Hparts. apply split_at_concat. }
  assert (Hchunk : ∀ i chunk, parts !! i = Some chunk →
            chunk = take (length chunk) (drop (i * sz) lines) ∧
            length chunk
            = if decide (i < Z.to_nat n - 1)%nat then sz
              else (length lines - (Z.to_nat n - 1) * sz)%nat).
  { intros i chunk Hi.
    assert (i < Z.to_nat n)%nat
      by (rewrite <-Hlen; by eapply lookup_lt_Some).
    rewrite Hparts, split_at_lookup in Hi by lia.
    injection Hi as <-. case_decide.
    - rewrite length_take, length_drop.
      assert (i * sz + sz ≤ (Z.to_nat n - 1) * sz)%nat by nia.
      by replace (sz `min` (length lines - i * sz))%nat with sz by lia.
    - replace i with (Z.to_nat n - 1)%nat by lia.
      split; [by rewrite take_ge|]. by rewrite length_drop. }
  split_and!; [done|done|by rewrite <-length_concat_sum, Hcat| |].
  - intros i chunk Hi. rewrite Hsz.
    destruct (Hchunk i chunk Hi) as [Heq Hl]. split; [done|].
    rewrite Hl. case_decide; [lia|].
    pose proof (Z.div_mod total n) as Hdm. fold size in Hdm.
    rewrite Nat2Z.inj_sub, Nat2Z.inj_mul, Nat2Z.inj_sub by lia.
    fold total. rewrite Z2Nat.id by lia. lia.
  - intros i j ci cj Hij Hi Hj. rewrite Hsz.
    assert (j < Z.to_nat n)%nat
      by (rewrite <-Hlen; by eapply lookup_lt_Some).
    destruct (Hchunk i ci Hi) as [_ Hl]. rewrite Hl.
    rewrite decide_True by lia. nia.
Qed.

(** C4, as the code has it.  For every sequence and every [n] from 1 on,
    both partitioners return exactly [n] chunks; chunk [i] is the slice of
    the sequence that starts at offset [i * size], so the chunks are
    contiguous and pairwise disjoint; their concatenation is the sequence
    and their lengths sum to its length.  In [multi_threaded_wordcount],
    where [size] is the length divided by [n] and rounded down, all chunks
    but the last have [size] elements and the last one has the remainder
    [len(lines) % n] on top of that.  In [multithreaded_count] of
    wordcount_mt.py, where the size is the quotient rounded up, no remainder
    is absorbed: every chunk has [chunk_size] elements as long as that many
    are left, and the later ones have what is left, down to none. *)
Theorem partition_exact {A} (lines : list A) (n : Z) :
  1 ≤ n →
  let total := Z.of_nat (length lines) in
  (let size := total `div` n in
   let parts := chunks lines size total n in
   length parts = Z.to_nat n ∧
   concat parts = lines ∧
   sum_list_with length parts = length lines ∧
   (∀ i chunk, parts !! i = Some chunk →
      chunk = take (length chunk) (drop (i * Z.to_nat size) lines) ∧
      Z.of_nat (length chunk)
      = if decide (i < Z.to_nat n - 1)%nat then size
        else size + total `mod` n) ∧
   (∀ i j ci cj, (i < j)%nat → parts !! i = Some ci → parts !! j = Some cj →
      (i * Z.to_nat size + length ci ≤ j * Z.to_nat size)%nat)) ∧
  (let chunk_size := (total + n - 1) `div` n in
   let mt_parts := mt_chunks lines chunk_size n in
   length mt_parts = Z.to_nat n ∧
   concat mt_parts = lines ∧
   sum_list_with length mt_parts = length lines ∧
   (∀ i chunk, mt_parts !! i = Some chunk →
      chunk = take (length chunk) (drop (i * Z.to_nat chunk_size) lines) ∧
      Z.of_nat (length chunk)
      = chunk_size `min` (0 `max` (total - Z.of_nat i * chunk_size))) ∧
   (∀ i j ci cj, (i < j)%nat →
      mt_parts !! i = Some ci → mt_parts !! j = Some cj →
      (i * Z.to_nat chunk_size + length ci ≤ j * Z.to_nat chunk_size)%nat)).
Proof.
  intros Hn total. split; [exact (chunks_exact lines n Hn)|].
  subst total. cbn zeta.
  destruct (mt_chunks_ceil lines n Hn) as (sz & Hsz & Hge & _ & Hparts).
  rewrite Hparts, Hsz, Nat2Z.id.
  assert (Hcat : concat ((λ i, take sz (drop (i * sz) lines))
                           <$> seq 0 (Z.to_nat n)) = lines).
  { rewrite uniform_chunks_concat. by apply take_ge. }
  assert (Hchunk : ∀ i chunk,
            ((λ i, take sz (drop (i * sz) lines)) <$> seq 0 (Z.to_nat n)) !! i
            = Some chunk →
            chunk = take sz (drop (i * sz) lines)).
  { intros i chunk. rewrite list_lookup_fmap. intros Hi.
    destruct (seq 0 (Z.to_nat n) !! i) as [j|] eqn:Hj; [|done].
    apply lookup_seq in Hj as [-> _]. by injection Hi as <-. }
  split_and!.
  - by rewrite length_fmap, length_seq.
  - done.
  - by rewrite <-length_concat_sum, Hcat.
  - intros i chunk ->%Hchunk. split.
    + rewrite length_take, <-take_take. f_equal. symmetry. by apply take_ge.
    + rewrite length_take, length_drop. lia.
  - intros i j ci cj Hij ->%Hchunk _. rewrite length_take. nia.
Qed.

Lemma partition_exact_witness :
  1 ≤ 3 ∧
  chunks [1; 2; 3; 4; 5; 6; 7; 8]%nat (8 `div` 3) 8 3
  = [[1; 2]; [3; 4]; [5; 6; 7; 8]]%nat ∧
  length (chunks [1; 2; 3; 4; 5; 6; 7; 8]%nat (8 `div` 3) 8 3) = 3%nat ∧
  concat (chunks [1; 2; 3; 4; 5; 6; 7; 8]%nat (8 `div` 3) 8 3)
  = [1; 2; 3; 4; 5; 6; 7; 8]%nat ∧
  sum_list_with length (chunks [1; 2; 3; 4; 5; 6; 7; 8]%nat (8 `div` 3) 8 3)
  = 8%nat ∧
  mt_chunks [1; 2; 3; 4; 5; 6; 7; 8]%nat ((8 + 3 - 1) `div` 3) 3
  = [[1; 2; 3]; [4; 5; 6]; [7; 8]]%nat ∧
  concat (mt_chunks [1; 2; 3; 4; 5; 6; 7; 8]%nat ((8 + 3 - 1) `div` 3) 3)
  = [1; 2; 3; 4; 5; 6; 7; 8]%nat.
Proof.
  assert (Hn : 1 ≤ 3) by lia.
  destruct (partition_exact [1; 2; 3; 4; 5; 6; 7; 8]%nat 3 Hn)
    as ((Hlen & Hcat & Hsum & _) & (_ & Hmtcat & _)).
  split; [exact Hn|]. split; [reflexivity|].
  split; [exact Hlen|]. split; [exact Hcat|]. split; [exact Hsum|].
  split; [reflexivity|exact Hmtcat].
Defined.

(** C4 as stated fails on wordcount_mt.py: seven lines and three threads
    give chunks of 3, 3 and 1 lines, so the last chunk has not taken up a
    remainder on top of the [7 // 3 = 2] lines of an even share; it is the
    shortest. *)
Lemma mt_last_chunk_short :
  mt_chunks [str "l1"; str "l2"; str "l3"; str "l4"; str "l5"; str "l6";
             str "l7"] ((7 + 3 - 1) `div` 3) 3
  = [[str "l1"; str "l2"; str "l3"]; [str "l4"; str "l5"; str "l6"];
     [str "l7"]] ∧
  ¬ (∀ i chunk,
       mt_chunks [str "l1"; str "l2"; str "l3"; str "l4"; str "l5";
                  str "l6"; str "l7"] ((7 + 3 - 1) `div` 3) 3 !! i
       = Some chunk →
       Z.of_nat (length chunk)
       = if decide (i < Z.to_nat 3 - 1)%nat then 7 `div` 3
         else 7 `div` 3 + 7 `mod` 3).
Proof.
  split; [reflexivity|]. intros Hclaim.
  specialize (Hclaim 2%nat _ eq_refl). vm_compute in Hclaim. discriminate.
Qed.

(** C3, as the code has it.  When there are more threads than lines,
    [multi_threaded_wordcount] still makes [n] chunks, none omitted: the
    first [n - 1] are empty and the last one holds every line (the key groups
    are split alike).  An empty chunk maps to the empty dictionary and an
    empty key group reduces to the empty dictionary, and the call returns,
    without raising, the mapping of [single_threaded_wordcount].  In
    [multithreaded_count] of wordcount_mt.py the chunks are [n] as well, and
    there the empty ones are those at the positions from [len(lines)] on. *)
Theorem more_threads_than_lines lower_other (lines : list (list N)) (n : Z) :
  Z.of_nat (length lines) < n →
  let total := Z.of_nat (length lines) in
  chunks lines (total `div` n) total n
  = replicate (Z.to_nat n - 1) [] ++ [lines] ∧
  (∀ keys : list (list N),
     Z.of_nat (length keys) < n →
     chunks keys (Z.of_nat (length keys) `div` n) (Z.of_nat (length keys)) n
     = replicate (Z.to_nat n - 1) [] ++ [keys]) ∧
  (∀ intermediate index,
     map_task lower_other [] intermediate index
     = <[index := Some ∅]> intermediate) ∧
  (∀ ms, reduce_loop [] (Some <$> ms) ∅ = Some ∅) ∧
  multi_threaded_wordcount lower_other lines n
  = Ok (single_threaded_wordcount lower_other lines) ∧
  let mt_parts := mt_chunks lines ((total + n - 1) `div` n) n in
  length mt_parts = Z.to_nat n ∧
  (∀ i chunk, mt_parts !! i = Some chunk → (length lines ≤ i)%nat →
              chunk = []).
Proof.
  intros Hn total. subst total. cbn zeta.
  assert (Hsmall : ∀ {A} (xs : list A),
            Z.of_nat (length xs) < n →
            chunks xs (Z.of_nat (length xs) `div` n) (Z.of_nat (length xs)) n
            = replicate (Z.to_nat n - 1) [] ++ [xs]).
  { intros A xs Hxs.
    destruct (chunks_floor xs n) as (_ & _ & ->); [lia|].
    rewrite Nat.div_small by lia. apply split_at_small. }
  split_and!.
  - by apply Hsmall.
  - intros keys. apply Hsmall.
  - done.
  - intros ms. rewrite reduce_loop_filled. f_equal.
    unfold reduce_all. by induction ms.
  - apply multi_threaded_equiv. lia.
  - destruct (mt_chunks_ceil lines n) as (sz & _ & _ & _ & ->); [lia|].
    by rewrite length_fmap, length_seq.
  - intros i chunk.
    destruct (mt_chunks_ceil lines n) as (sz & _ & _ & Hz & ->); [lia|].
    rewrite list_lookup_fmap. intros Hi Hlen.
    destruct (seq 0 (Z.to_nat n) !! i) as [j|] eqn:Hj; [|done].
    apply lookup_seq in Hj as [-> _]. injection Hi as <-. simpl.
    destruct sz as [|sz]; [done|].
    rewrite drop_ge by nia. apply take_nil.
Qed.

Lemma more_threads_than_lines_witness :
  Z.of_nat (length [str "a b"; str "c"]) < 4 ∧
  chunks [str "a b"; str "c"] (2 `div` 4) 2 4
  = [[]; []; []; [str "a b"; str "c"]] ∧
  multi_threaded_wordcount lower_id [str "a b"; str "c"] 4
  = Ok (single_threaded_wordcount lower_id [str "a b"; str "c"]) ∧
  mt_chunks [str "a b"; str "c"] ((2 + 4 - 1) `div` 4) 4
  = [[str "a b"]; [str "c"]; []; []].
Proof.
  assert (Hlt : Z.of_nat (length [str "a b"; str "c"]) < 4) by (simpl; lia).
  destruct (more_threads_than_lines lower_id [str "a b"; str "c"] 4 Hlt)
    as (Hchunks & _ & _ & _ & Hmulti & _).
  split; [exact Hlt|]. split; [exact Hchunks|]. split; [exact Hmulti|].
  reflexivity.
Defined.

(** C3 as stated fails: on two lines and three threads the chunk past the
    line count holds both lines, and the empty chunks are the leading
    ones. *)
Lemma trailing_chunks_not_empty :
  chunks [str "a"; str "b"] (2 `div` 3) 2 3 = [[]; []; [str "a"; str "b"]] ∧
  ¬ (∀ i chunk,
       chunks [str "a"; str "b"] (2 `div` 3) 2 3 !! i = Some chunk →
       (length [str "a"; str "b"] ≤ i)%nat → chunk = []).
Proof.
  split; [reflexivity|]. intros Hclaim.
  by specialize (Hclaim 2%nat _ eq_refl (le_n 2)).
Qed.

(** C2, as the code has it.  A thread count below 1 is rejected by the
    request handler, which answers "Invalid thread count" without calling
    the pipeline.  [multi_threaded_wordcount] checks nothing itself: on 0 it
    raises [ZeroDivisionError] at the first division, before any task is
    started; on -1 or less it starts no task, raises nothing and returns the
    empty mapping. *)
Theorem invalid_thread_count lower_other (lines : list (list N)) (n : Z) :
  n < 1 →
  wordcount_api lower_other (Some lines) (Some n)
  = BadRequest "Invalid thread count" ∧
  (n = 0 →
   multi_threaded_wordcount lower_other lines n = Raise ZeroDivisionError) ∧
  (n ≤ -1 → multi_threaded_wordcount lower_other lines n = Ok ∅).
Proof.
  intros Hn. split_and!.
  - unfold wordcount_api. by rewrite decide_True.
  - intros ->. apply multi_threaded_zero.
  - apply multi_threaded_negative.
Qed.

Lemma invalid_thread_count_witness :
  0 < 1 ∧
  wordcount_api lower_id (Some [str "a b"]) (Some 0)
  = BadRequest "Invalid thread count" ∧
  multi_threaded_wordcount lower_id [str "a b"] 0 = Raise ZeroDivisionError.
Proof.
  assert (Hlt : 0 < 1) by lia.
  destruct (invalid_thread_count lower_id [str "a b"] 0 Hlt) as (Hapi & Hzero & _).
  split; [exact Hlt|]. split; [exact Hapi|]. exact (Hzero eq_refl).
Defined.

(** C2 as stated fails: with -1 threads the orchestrator rejects nothing and
    returns a mapping, the empty one, for a line that has a word. *)
Lemma negative_threads_not_rejected :
  multi_threaded_wordcount lower_id [str "word"] (-1) = Ok ∅ ∧
  ¬ (∃ e, multi_threaded_wordcount lower_id [str "word"] (-1) = Raise e).
Proof. split; [reflexivity|]. intros [e He]. discriminate He. Qed.

(** C6, as the code has it.  [CombinerThread.run] sorts the items of the
    reduced dictionary by descending count and by nothing else: its output
    is a rearrangement of the items, in descending order of count, in which
    the pairs of equal count keep the order they have in the dictionary, and
    it is the only list with these properties.  On [{a:3, b:5, c:5, d:1}],
    whose items come in that order, the outcome is b, c, a, d. *)
Theorem combiner_sorts_by_count (reduced : list (list N * Z)) :
  let out := CombinerThread_run reduced [] in
  out ≡ₚ reduced ∧
  StronglySorted count_ge out ∧
  (∀ c, with_count c out = with_count c reduced) ∧
  (∀ out', StronglySorted count_ge out' →
           (∀ c, with_count c out' = with_count c reduced) → out' = out) ∧
  CombinerThread_run
    [(str "a", 3); (str "b", 5); (str "c", 5); (str "d", 1)] []
  = [(str "b", 5); (str "c", 5); (str "a", 3); (str "d", 1)].
Proof.
  unfold CombinerThread_run. simpl. split_and!.
  - apply sorted_by_count_desc_Permutation.
  - apply sorted_by_count_desc_sorted.
  - intros c. apply sorted_by_count_desc_stable.
  - intros out' Hs Hstable. apply stable_sort_unique.
    + done.
    + apply sorted_by_count_desc_sorted.
    + intros c. by rewrite Hstable, sorted_by_count_desc_stable.
  - reflexivity.
Qed.

(** C6 as stated fails: when the reduced dictionary holds c before b, both
    with count 5, the combiner leaves c in front of b, against the ascending
    order of the words.  The same mapping with b entered before c comes out
    with b in front, so the order among equal counts is no function of the
    pairs. *)
Lemma ties_not_lexical :
  CombinerThread_run
    [(str "c", 5); (str "b", 5); (str "a", 3); (str "d", 1)] []
  = [(str "c", 5); (str "b", 5); (str "a", 3); (str "d", 1)] ∧
  ¬ Sorted count_then_word
      (CombinerThread_run
         [(str "c", 5); (str "b", 5); (str "a", 3); (str "d", 1)] []) ∧
  (list_to_map [(str "c", 5); (str "b", 5); (str "a", 3); (str "d", 1)]
   =@{gmap (list N) Z}
   list_to_map [(str "b", 5); (str "c", 5); (str "a", 3); (str "d", 1)]) ∧
  CombinerThread_run
    [(str "c", 5); (str "b", 5); (str "a", 3); (str "d", 1)] []
  ≠ CombinerThread_run
      [(str "b", 5); (str "c", 5); (str "a", 3); (str "d", 1)] [].
Proof.
  split; [reflexivity|]. split; [|split; [by vm_compute|discriminate]].
  change (CombinerThread_run _ _)
    with [(str "c", 5); (str "b", 5); (str "a", 3); (str "d", 1)].
  intros Hs. apply Sorted_inv in Hs as [_ Hhd].
  apply HdRel_inv in Hhd. destruct Hhd as [Hlt|[_ Hle]].
  - simpl in Hlt. lia.
  - discriminate Hle.
Qed.

(** C7. The order in which per-task results are processed does not change
    the outcome: [reduce_task] over a permutation of the partial count maps
    writes the same slot array, [combiner_task] over a permutation of the
    reduced count maps returns the same mapping, and so does the Reduce and
    Combine chain when both the partial count maps and the key groups are
    permuted. *)
Theorem processing_order_irrelevant
    (keys : list (list N)) (ms ms' rs rs' : list (gmap (list N) Z))
    (groups groups' : list (list (list N)))
    (reduced : list (option (gmap (list N) Z))) (index : nat)
    (final_counts : gmap (list N) Z) :
  ms ≡ₚ ms' → rs ≡ₚ rs' → groups ≡ₚ groups' →
  reduce_task keys (Some <$> ms') reduced index
  = reduce_task keys (Some <$> ms) reduced index ∧
  combiner_task (Some <$> rs') final_counts
  = combiner_task (Some <$> rs) final_counts ∧
  combiner_task
    (Some <$> ((λ keys, reduce_all keys ms' ∅) <$> groups')) final_counts
  = combiner_task
      (Some <$> ((λ keys, reduce_all keys ms ∅) <$> groups)) final_counts.
Proof.
  intros Hms Hrs Hgroups. split_and!.
  - unfold reduce_task. rewrite !reduce_loop_filled.
    by rewrite (reduce_all_Permutation keys ms ms').
  - symmetry. by apply combiner_task_Permutation.
  - symmetry. apply combiner_task_Permutation.
    rewrite Hgroups.
    rewrite (list_fmap_ext (λ keys, reduce_all keys ms ∅)
               (λ keys, reduce_all keys ms' ∅) groups'); [done|].
    intros _ g _. by apply reduce_all_Permutation.
Qed.

Lemma processing_order_irrelevant_witness :
  [{[ str "a" := 2; str "b" := 1 ]}; {[ str "b" := 4 ]}]
    ≡ₚ [{[ str "b" := 4 ]}; ({[ str "a" := 2; str "b" := 1 ]} : gmap (list N) Z)] ∧
  reduce_task [str "a"; str "b"]
    (Some <$> [{[ str "b" := 4 ]}; {[ str "a" := 2; str "b" := 1 ]}]) [None] 0
  = reduce_task [str "a"; str "b"]
      (Some <$> [{[ str "a" := 2; str "b" := 1 ]}; {[ str "b" := 4 ]}]) [None] 0 ∧
  combiner_task
    (Some <$> [{[ str "b" := 4 ]}; {[ str "a" := 2; str "b" := 1 ]}]) ∅
  = combiner_task
      (Some <$> [{[ str "a" := 2; str "b" := 1 ]}; {[ str "b" := 4 ]}]) ∅.
Proof.
  assert (Hperm :
    [{[ str "a" := 2; str "b" := 1 ]}; {[ str "b" := 4 ]}]
      ≡ₚ [{[ str "b" := 4 ]}; ({[ str "a" := 2; str "b" := 1 ]} : gmap (list N) Z)])
    by apply Permutation_swap.
  destruct (processing_order_irrelevant [str "a"; str "b"]
              _ _ _ _ [] [] [None] 0 ∅
              Hperm Hperm (Permutation_refl _)) as (Hred & Hcomb & _).
  split; [exact Hperm|]. split; [exact Hred|exact Hcomb].
Defined.

(** C9. Tokenization is idempotent.  Lowercasing a lowercased code point
    changes nothing, wherever it stands; given that, every token the tokenizer of
    wordcount_mr.py finds in a text tokenizes to itself alone, and
    tokenizing the tokens one after the other gives the token sequence back.
    The same holds of the tokenizer of wordcount_mt.py. *)
Theorem tokenize_idempotent (lower_other : list N → N → list N → list N)
    (is_word_other : N → bool) (text : list N) :
  (∀ before c after d,
     (128 ≤ c)%N → d ∈ lower_other before c after →
     ∀ before' after', lower_char lower_other before' d after' = [d]) →
  (∀ t, t ∈ tokenize lower_other text → tokenize lower_other t = [t]) ∧
  concat (tokenize lower_other <$> tokenize lower_other text)
  = tokenize lower_other text ∧
  (∀ t, t ∈ tokenize_w lower_other is_word_other text →
        tokenize_w lower_other is_word_other t = [t]) ∧
  concat (tokenize_w lower_other is_word_other
            <$> tokenize_w lower_other is_word_other text)
  = tokenize_w lower_other is_word_other text.
Proof.
  intros Hstable. unfold tokenize, tokenize_w. split_and!.
  - intros t. by apply retokenize.
  - by apply retokenize_all.
  - intros t. by apply retokenize.
  - by apply (retokenize_all lower_other Hstable (is_word is_word_other)).
Qed.

Lemma tokenize_idempotent_witness :
  tokenize lower_id (str "The QUICK brown-fox, 2 times")
  = [str "the"; str "quick"; str "brown"; str "fox"; str "times"] ∧
  (∀ t, t ∈ tokenize lower_id (str "The QUICK brown-fox, 2 times") →
        tokenize lower_id t = [t]) ∧
  concat (tokenize lower_id
            <$> tokenize lower_id (str "The QUICK brown-fox, 2 times"))
  = tokenize lower_id (str "The QUICK brown-fox, 2 times").
Proof.
  destruct (tokenize_idempotent lower_id (λ _, false)
              (str "The QUICK brown-fox, 2 times") lower_id_stable)
    as (Heach & Hall & _).
  split; [reflexivity|]. split; [exact Heach|exact Hall].
Defined.


(** * Further properties of the code *)

(** ** The sequential counter *)

Lemma occurrences_pos w ws : w ∈ ws → 0 < occurrences w ws.
Proof.
  induction ws as [|x ws IH]; simpl; [by rewrite elem_of_nil|].
  rewrite elem_of_cons. intros [->|Hin].
  - rewrite decide_True by done.
    assert (0 ≤ occurrences x ws); [|lia].
    clear. induction ws as [|y ws IH]; simpl; [done|]. case_decide; lia.
  - specialize (IH Hin). case_decide; lia.
Qed.

Lemma occurrences_lines_Permutation lower_other w lines lines' :
  lines ≡ₚ lines' →
  occurrences w (tokens_of lower_other lines)
  = occurrences w (tokens_of lower_other lines').
Proof.
  unfold tokens_of. induction 1; csimpl; rewrite ?occurrences_app; lia.
Qed.

Lemma tokens_of_app lower_other lines1 lines2 :
  tokens_of lower_other (lines1 ++ lines2)
  = tokens_of lower_other lines1 ++ tokens_of lower_other lines2.
Proof. unfold tokens_of. by rewrite fmap_app, concat_app. Qed.

Lemma single_Permutation lower_other lines lines' :
  lines ≡ₚ lines' →
  single_threaded_wordcount lower_other lines
  = single_threaded_wordcount lower_other lines'.
Proof.
  intros Hperm. apply positive_ext; [apply single_positive..|].
  intros w. rewrite !single_count. by apply occurrences_lines_Permutation.
Qed.

(** X1. [single_threaded_wordcount] gives every word that occurs among the
    tokens of the lines the number of its occurrences, and has no entry for
    any other string: no key is ever stored with count 0. *)
Theorem single_counts_occurrences lower_other (lines : list (list N))
    (w : list N) :
  single_threaded_wordcount lower_other lines !! w
  = if decide (w ∈ tokens_of lower_other lines)
    then Some (occurrences w (tokens_of lower_other lines))
    else None.
Proof.
  rewrite (positive_lookup _ w) by apply single_positive.
  rewrite single_count.
  destruct (decide (w ∈ tokens_of lower_other lines)) as [Hin|Hin].
  - pose proof (occurrences_pos _ _ Hin). rewrite decide_False by lia. done.
  - rewrite occurrences_not_elem by done. done.
Qed.

(** X2. Counting is additive over concatenation of line sequences, and the
    order of the lines does not matter: a permutation of the lines gives the
    same mapping. *)
Theorem single_additive_and_order_free lower_other
    (lines1 lines2 lines lines' : list (list N)) (w : list N) :
  lines ≡ₚ lines' →
  count_of (single_threaded_wordcount lower_other (lines1 ++ lines2)) w
  = count_of (single_threaded_wordcount lower_other lines1) w
    + count_of (single_threaded_wordcount lower_other lines2) w ∧
  single_threaded_wordcount lower_other lines
  = single_threaded_wordcount lower_other lines'.
Proof.
  intros Hperm. split; [|by apply single_Permutation].
  by rewrite !single_count, tokens_of_app, occurrences_app.
Qed.

Lemma single_additive_and_order_free_witness :
  [str "b a"; str "a"] ≡ₚ [str "a"; str "b a"] ∧
  count_of (single_threaded_wordcount lower_id ([str "a b"] ++ [str "a"]))
    (str "a")
  = count_of (single_threaded_wordcount lower_id [str "a b"]) (str "a")
    + count_of (single_threaded_wordcount lower_id [str "a"]) (str "a") ∧
  single_threaded_wordcount lower_id [str "b a"; str "a"]
  = single_threaded_wordcount lower_id [str "a"; str "b a"].
Proof.
  assert (Hperm : [str "b a"; str "a"] ≡ₚ [str "a"; str "b a"])
    by apply Permutation_swap.
  split; [exact Hperm|].
  exact (single_additive_and_order_free lower_id
           [str "a b"] [str "a"] _ _ (str "a") Hperm).
Defined.

(** X3. The result of [multi_threaded_wordcount] depends neither on the
    thread count, as long as it is at least 1, nor on the order of the
    lines. *)
Theorem multi_threads_and_order_free lower_other
    (lines lines' : list (list N)) (n m : Z) :
  1 ≤ n → 1 ≤ m → lines ≡ₚ lines' →
  multi_threaded_wordcount lower_other lines n
  = multi_threaded_wordcount lower_other lines' m.
Proof.
  intros Hn Hm Hperm. rewrite !multi_threaded_equiv by done.
  f_equal. by apply single_Permutation.
Qed.

Lemma multi_threads_and_order_free_witness :
  1 ≤ 2 ∧ 1 ≤ 5 ∧
  [str "b a"; str "a"] ≡ₚ [str "a"; str "b a"] ∧
  multi_threaded_wordcount lower_id [str "b a"; str "a"] 2
  = multi_threaded_wordcount lower_id [str "a"; str "b a"] 5.
Proof.
  assert (Hperm : [str "b a"; str "a"] ≡ₚ [str "a"; str "b a"])
    by apply Permutation_swap.
  assert (H2 : 1 ≤ 2) by lia. assert (H5 : 1 ≤ 5) by lia.
  split; [exact H2|]. split; [exact H5|]. split; [exact Hperm|].
  exact (multi_threads_and_order_free lower_id _ _ 2 5 H2 H5 Hperm).
Defined.

Lemma elem_of_concat {A} (x : A) (ls : list (list A)) :
  x ∈ concat ls ↔ ∃ l, l ∈ ls ∧ x ∈ l.
Proof.
  induction ls as [|l ls IH]; simpl.
  - rewrite elem_of_nil. split; [done|]. intros (l & Hl & _).
    by apply elem_of_nil in Hl.
  - rewrite elem_of_app, IH. split.
    + intros [Hx|(l' & Hl' & Hx)].
      * exists l. split; [left|done].
      * exists l'. split; [by right|done].
    + intros (l' & [->|Hl']%elem_of_cons & Hx); [by left|].
      right. by exists l'.
Qed.

Lemma elem_of_tokens_of lower_other (lines : list (list N)) (w : list N) :
  w ∈ tokens_of lower_other lines
  ↔ ∃ line, line ∈ lines ∧ w ∈ tokenize lower_other line.
Proof.
  unfold tokens_of. rewrite elem_of_concat. split.
  - intros (ts & (line & -> & Hline)%list_elem_of_fmap & Hw). by exists line.
  - intros (line & Hline & Hw). exists (tokenize lower_other line).
    split; [|done]. apply list_elem_of_fmap. by exists line.
Qed.

Lemma single_key_token lower_other (lines : list (list N)) (w : list N) :
  is_Some (single_threaded_wordcount lower_other lines !! w)
  ↔ w ∈ tokens_of lower_other lines.
Proof.
  rewrite (positive_lookup _ w) by apply single_positive.
  rewrite single_count. split.
  - case_decide as Hz; [by intros [? ?]|]. intros _.
    destruct (decide (w ∈ tokens_of lower_other lines)); [done|].
    by rewrite occurrences_not_elem in Hz.
  - intros Hin%occurrences_pos. rewrite decide_False by lia. done.
Qed.

(** X4. Every key of the mapping returned by [single_threaded_wordcount]
    is a non-empty string of the letters a to z: no empty key, no digit or
    punctuation, and, lowercasing being stable, no capital letter. *)
Theorem single_keys_lowercase_words
    (lower_other : list N → N → list N → list N)
    (lines : list (list N)) (w : list N) :
  (∀ before c after d,
     (128 ≤ c)%N → d ∈ lower_other before c after →
     ∀ before' after', lower_char lower_other before' d after' = [d]) →
  is_Some (single_threaded_wordcount lower_other lines !! w) →
  w ≠ [] ∧ ∀ c, c ∈ w → is_ascii_lower c = true.
Proof.
  intros Hstable Hkey%single_key_token.
  apply elem_of_tokens_of in Hkey as (line & _ & Hw).
  apply findall_tokens in Hw as [Hne Hall]. split; [done|].
  intros c Hc. destruct (Hall c Hc) as [Halpha Hlow].
  apply elem_of_lower_from in Hlow as (b & c0 & a & _ & Hlow).
  pose proof (lower_char_stable lower_other Hstable b c0 a c Hlow [] [])
    as Hfix.
  unfold lower_char in Hfix. unfold is_alpha in Halpha.
  destruct (is_ascii_upper c); [|done].
  injection Hfix as Hfix. lia.
Qed.

Lemma single_keys_lowercase_words_witness :
  is_Some (single_threaded_wordcount lower_id [str "The QUICK fox"]
             !! str "quick") ∧
  str "quick" ≠ [] ∧ ∀ c, c ∈ str "quick" → is_ascii_lower c = true.
Proof.
  assert (Hkey : is_Some (single_threaded_wordcount lower_id
                            [str "The QUICK fox"] !! str "quick"))
    by (vm_compute; eauto).
  split; [exact Hkey|].
  exact (single_keys_lowercase_words lower_id [str "The QUICK fox"]
           (str "quick") lower_id_stable Hkey).
Defined.

(** ** The phases of multi_threaded_wordcount *)

(** X5. With at least one thread, the Map phase leaves no slot of
    [intermediate] empty: slot [i] holds the counts of chunk [i], the ones
    the sequential counter gives on that chunk.  The shuffle then does not
    raise, and the set it collects is the set of the tokens of the input. *)
Theorem map_phase_fills_slots lower_other (lines : list (list N)) (n : Z) :
  1 ≤ n →
  let total := Z.of_nat (length lines) in
  let partitions := chunks lines (total `div` n) total n in
  let intermediate :=
    run_threads (map_task lower_other) 0 partitions
      (replicate (Z.to_nat n) None) in
  length intermediate = Z.to_nat n ∧
  (∀ i chunk, partitions !! i = Some chunk →
     intermediate !! i
     = Some (Some (single_threaded_wordcount lower_other chunk))) ∧
  ∃ unique_words,
    shuffle intermediate ∅ = Ok unique_words ∧
    ∀ w, w ∈ unique_words ↔ w ∈ tokens_of lower_other lines.
Proof.
  intros Hn total partitions intermediate.
  destruct (chunks_floor lines n Hn) as (_ & _ & Hparts).
  fold total in Hparts. fold partitions in Hparts.
  assert (Hlen : Z.to_nat n = length partitions).
  { rewrite Hparts, split_at_length. lia. }
  assert (Hcat : concat partitions = lines).
  { rewrite Hparts. apply split_at_concat. }
  assert (Hint : intermediate
                 = Some <$> (count_lines lower_other ∅ <$> partitions)).
  { unfold intermediate. rewrite Hlen.
    by apply (run_threads_all (map_task lower_other)). }
  split_and!.
  - by rewrite Hint, !length_fmap.
  - intros i chunk Hi. rewrite Hint, !list_lookup_fmap, Hi. done.
  - rewrite Hint.
    destruct (shuffle_filled (count_lines lower_other ∅ <$> partitions) ∅)
      as (U & -> & HU).
    exists U. split; [done|]. intros w. rewrite HU, elem_of_empty.
    rewrite <-Hcat, tokens_of_concat, elem_of_concat. split.
    + intros [[]|(m & (p & -> & Hp)%list_elem_of_fmap & Hw)].
      exists (tokens_of lower_other p). split.
      * apply list_elem_of_fmap. by exists p.
      * apply single_key_token. by apply elem_of_dom.
    + intros (ts & (p & -> & Hp)%list_elem_of_fmap & Hw). right.
      exists (count_lines lower_other ∅ p). split.
      * apply list_elem_of_fmap. by exists p.
      * apply elem_of_dom. by apply (single_key_token lower_other p).
Qed.

Lemma map_phase_fills_slots_witness :
  1 ≤ 2 ∧
  length (run_threads (map_task lower_id) 0
            (chunks [str "a b"; str "c"; str "a"] (3 `div` 2) 3 2)
            (replicate (Z.to_nat 2) None)) = Z.to_nat 2 ∧
  ∃ unique_words,
    shuffle (run_threads (map_task lower_id) 0
               (chunks [str "a b"; str "c"; str "a"] (3 `div` 2) 3 2)
               (replicate (Z.to_nat 2) None)) ∅ = Ok unique_words ∧
    ∀ w, w ∈ unique_words
         ↔ w ∈ tokens_of lower_id [str "a b"; str "c"; str "a"].
Proof.
  assert (Hn : 1 ≤ 2) by lia.
  destruct (map_phase_fills_slots lower_id [str "a b"; str "c"; str "a"] 2 Hn)
    as (Hlen & _ & HU).
  split; [exact Hn|]. split; [exact Hlen|exact HU].
Defined.

Lemma total_of_pos w ms :
  Forall positive ms →
  0 < total_of w ms ↔ Exists (λ m, is_Some (m !! w)) ms.
Proof.
  rewrite Exists_exists.
  induction 1 as [|m ms Hm Hms IH]; simpl.
  - split; [lia|]. intros (m & Hin & _). by apply elem_of_nil in Hin.
  - pose proof (positive_count_of m w Hm) as Hge.
    assert (Htail : 0 ≤ total_of w ms).
    { clear -Hms. induction Hms as [|m' ms' Hm' _ IH']; simpl; [done|].
      pose proof (positive_count_of m' w Hm'). lia. }
    split.
    + intros Hpos. destruct (decide (0 < count_of m w)) as [Hc|Hc].
      * exists m. split; [left|]. unfold count_of in Hc.
        destruct (m !! w); [eauto|simpl in Hc; lia].
      * assert (0 < total_of w ms) as (m' & Hin & Hw)%IH by lia.
        exists m'. split; [by right|done].
    + intros (m' & [->|Hin]%elem_of_cons & [v Hv]).
      * specialize (Hm w v Hv). unfold count_of. rewrite Hv. simpl. lia.
      * assert (0 < total_of w ms); [|lia]. apply IH. eauto.
Qed.

(** X6. Given the partial count maps of a filled slot array and a key group
    without repetition, [reduce_task] never fails and writes into its slot
    the map that gives each key of the group its count summed over all the
    partial maps.  A key that no partial map holds gets no entry, and
    neither does a key outside the group. *)
Theorem reduce_task_sums_group (keys : list (list N))
    (ms : list (gmap (list N) Z))
    (reduced : list (option (gmap (list N) Z))) (index : nat) :
  Forall positive ms → NoDup keys →
  ∃ counts,
    reduce_task keys (Some <$> ms) reduced index
    = <[index := Some counts]> reduced ∧
    ∀ w, counts !! w
         = if decide (w ∈ keys ∧ Exists (λ m, is_Some (m !! w)) ms)
           then Some (total_of w ms) else None.
Proof.
  intros Hms Hnd. exists (reduce_all keys ms ∅). split.
  { unfold reduce_task. by rewrite reduce_loop_filled. }
  intros w. destruct (reduce_all_spec keys ms ∅ Hms) as [Hc Hp].
  rewrite (positive_lookup _ w) by (apply Hp, positive_empty).
  rewrite Hc, count_of_empty, Z.add_0_l.
  destruct (decide (w ∈ keys)) as [Hin|Hout].
  - rewrite occurrences_NoDup, Z.mul_1_l by done.
    destruct (decide (0 < total_of w ms)) as [Hpos|Hzero].
    + rewrite decide_False by lia. rewrite decide_True; [done|].
      split; [done|]. by apply total_of_pos.
    + assert (total_of w ms = 0) as ->.
      { assert (0 ≤ total_of w ms); [|lia].
        clear -Hms. induction Hms as [|m ms Hm _ IH]; simpl; [done|].
        pose proof (positive_count_of m w Hm). lia. }
      rewrite decide_True by done. rewrite decide_False; [done|].
      intros [_ Hex]. apply Hzero. by apply total_of_pos.
  - rewrite occurrences_not_elem, Z.mul_0_l by done.
    rewrite decide_True by done. rewrite decide_False; [done|]. tauto.
Qed.

Lemma reduce_task_sums_group_witness :
  Forall positive
    [{[ str "a" := 2; str "b" := 1 ]}; ({[ str "b" := 4 ]} : gmap (list N) Z)] ∧
  NoDup [str "b"; str "z"] ∧
  reduce_task [str "b"; str "z"]
    (Some <$> [{[ str "a" := 2; str "b" := 1 ]}; {[ str "b" := 4 ]}])
    [None; None] 1
  = [None; Some {[ str "b" := 5 ]}].
Proof.
  assert (Hpos : Forall positive
    [{[ str "a" := 2; str "b" := 1 ]}; ({[ str "b" := 4 ]} : gmap (list N) Z)]).
  { apply Forall_cons; split; [|apply Forall_cons; split; [|by apply Forall_nil]].
    - change (map_Forall (λ _ v, 0 < v)
                ({[ str "a" := 2; str "b" := 1 ]} : gmap (list N) Z)).
      apply (bool_decide_unpack _). by vm_compute.
    - change (map_Forall (λ _ v, 0 < v)
                ({[ str "b" := 4 ]} : gmap (list N) Z)).
      apply (bool_decide_unpack _). by vm_compute. }
  assert (Hnd : NoDup [str "b"; str "z"])
    by (apply (bool_decide_unpack _); by vm_compute).
  destruct (reduce_task_sums_group [str "b"; str "z"] _ [None; None] 1 Hpos Hnd)
    as (counts & _ & _).
  split; [exact Hpos|]. split; [exact Hnd|]. reflexivity.
Defined.

(** ** The combiner *)

Lemma merge_items_count part_counts final_counts w :
  count_of (merge_items part_counts final_counts) w
  = count_of final_counts w + count_of part_counts w.
Proof. apply merge_items_spec. Qed.

Lemma merge_items_dom part_counts final_counts :
  dom (merge_items part_counts final_counts)
  = dom final_counts ∪ dom part_counts.
Proof.
  unfold merge_items.
  apply (map_fold_weak_ind
           (λ r (m : gmap (list N) Z), dom r = dom final_counts ∪ dom m)).
  - rewrite dom_empty_L. by rewrite (right_id_L ∅ (∪)).
  - intros k x m r _ IH. unfold add_count.
    rewrite !dom_insert_L, IH.
    by rewrite (assoc_L (∪)), (comm_L (∪) {[k]}), <-(assoc_L (∪)).
Qed.

(** X7. [combiner_task] only ever adds: on filled slots the count it leaves
    for a word is the count [final_counts] had plus the counts of all the
    reduced maps, whatever was in [final_counts] before, and no key of
    [final_counts] is lost.  It stops at the first slot that was never
    written, without touching what it has merged up to there. *)
Theorem combiner_task_adds (rs : list (gmap (list N) Z))
    (rest : list (option (gmap (list N) Z)))
    (final_counts : gmap (list N) Z) (w : list N) :
  count_of (combiner_task (Some <$> rs) final_counts) w
  = count_of final_counts w + total_of w rs ∧
  dom final_counts ⊆ dom (combiner_task (Some <$> rs) final_counts) ∧
  combiner_task ((Some <$> rs) ++ None :: rest) final_counts
  = combiner_task (Some <$> rs) final_counts.
Proof.
  revert final_counts. induction rs as [|r rs IH]; intros f; csimpl.
  - split_and!; [lia|done|done].
  - destruct (IH (merge_items r f)) as (Hc & Hd & Hn). split_and!.
    + rewrite Hc, merge_items_count. lia.
    + etrans; [|exact Hd]. rewrite merge_items_dom. apply union_subseteq_l.
    + exact Hn.
Qed.

(** ** The key groups *)

Lemma str_le_total a b : str_le a b ∨ str_le b a.
Proof.
  unfold str_le. revert b. induction a as [|x a IH]; intros [|y b]; simpl;
    [by left|by left|by right|].
  destruct (x <? y)%N eqn:Hxy; [by left|].
  destruct (y <? x)%N eqn:Hyx; [by right|].
  apply N.ltb_ge in Hxy, Hyx. assert (x = y) as -> by lia.
  rewrite N.eqb_refl. apply IH.
Qed.

Lemma str_le_trans a b c : str_le a b → str_le b c → str_le a c.
Proof.
  unfold str_le. revert b c.
  induction a as [|x a IH]; intros [|y b] [|z c]; simpl; try done.
  destruct (x <? y)%N eqn:Hxy.
  - apply N.ltb_lt in Hxy. intros _. destruct (y <? z)%N eqn:Hyz.
    + apply N.ltb_lt in Hyz. intros _.
      by replace (x <? z)%N with true by (symmetry; apply N.ltb_lt; lia).
    + destruct (y =? z)%N eqn:Hyz'; [|done]. apply N.eqb_eq in Hyz' as ->.
      intros _.
      by replace (x <? z)%N with true by (symmetry; apply N.ltb_lt; lia).
  - destruct (x =? y)%N eqn:Hxy'; [|done]. apply N.eqb_eq in Hxy' as ->.
    intros Hab. destruct (y <? z)%N; [done|].
    destruct (y =? z)%N; [|done]. by apply IH.
Qed.

Lemma sorted_strongly (ws : list (list N)) : StronglySorted str_le (sorted ws).
Proof.
  pose proof str_le_trans : Transitive str_le.
  pose proof str_le_total : Total str_le.
  unfold sorted. by apply StronglySorted_merge_sort.
Qed.

Lemma concat_split_at_lookup {A} (gs : list (list A)) (j : nat) :
  concat gs = concat (take j gs) ++ concat (drop j gs).
Proof. by rewrite <-concat_app, take_drop. Qed.

(** X8. With at least one thread, step 4 splits the sorted unique words
    into as many key groups as threads; every unique word belongs to one
    group and to one only, no other string belongs to any, and the groups
    follow each other in the order of the words: a key of an earlier group
    is smaller than every key of a later one. *)
Theorem key_groups_partition (unique_words : gset (list N)) (n : Z) :
  1 ≤ n →
  let sorted_keys := sorted (elements unique_words) in
  let nkeys := Z.of_nat (length sorted_keys) in
  let key_groups := chunks sorted_keys (nkeys `div` n) nkeys n in
  length key_groups = Z.to_nat n ∧
  (∀ w, w ∈ unique_words ↔ ∃ g, g ∈ key_groups ∧ w ∈ g) ∧
  NoDup (concat key_groups) ∧
  (∀ i j gi gj a b,
     (i < j)%nat → key_groups !! i = Some gi → key_groups !! j = Some gj →
     a ∈ gi → b ∈ gj → str_le a b ∧ a ≠ b).
Proof.
  intros Hn sorted_keys nkeys key_groups.
  destruct (chunks_floor sorted_keys n Hn) as (_ & _ & Hgroups).
  fold nkeys in Hgroups. fold key_groups in Hgroups.
  assert (Hcat : concat key_groups = sorted_keys).
  { rewrite Hgroups. apply split_at_concat. }
  destruct (sorted_elements unique_words) as [Hnd Hin].
  fold sorted_keys in Hnd, Hin.
  split_and!.
  - rewrite Hgroups, split_at_length. lia.
  - intros w. by rewrite <-Hin, <-Hcat, elem_of_concat.
  - by rewrite Hcat.
  - intros i j gi gj a b Hij Hi Hj Ha Hb.
    assert (Ha' : a ∈ concat (take j key_groups)).
    { apply elem_of_concat. exists gi. split; [|done].
      apply list_elem_of_lookup. exists i. by rewrite lookup_take_lt. }
    assert (Hb' : b ∈ concat (drop j key_groups)).
    { apply elem_of_concat. exists gj. split; [|done].
      apply list_elem_of_lookup. exists 0%nat.
      by rewrite lookup_drop, Nat.add_0_r. }
    pose proof (sorted_strongly (elements unique_words)) as Hs.
    fold sorted_keys in Hs.
    rewrite <-Hcat, (concat_split_at_lookup key_groups j) in Hs, Hnd.
    split.
    + by eapply StronglySorted_app_1_elem_of.
    + apply NoDup_app in Hnd as (_ & Hdisj & _). intros ->.
      by apply (Hdisj b).
Qed.

Lemma key_groups_partition_witness :
  1 ≤ 2 ∧
  chunks (sorted (elements ({[ str "pear"; str "fig"; str "apple" ]}
                              : gset (list N)))) (3 `div` 2) 3 2
  = [[str "apple"]; [str "fig"; str "pear"]] ∧
  NoDup (concat
           (chunks (sorted (elements ({[ str "pear"; str "fig"; str "apple" ]}
                                        : gset (list N)))) (3 `div` 2) 3 2)).
Proof.
  assert (Hn : 1 ≤ 2) by lia.
  destruct (key_groups_partition {[ str "pear"; str "fig"; str "apple" ]} 2 Hn)
    as (_ & _ & Hnd & _).
  split; [exact Hn|]. split; [by vm_compute|exact Hnd].
Defined.

(** ** Letter case *)

Lemma lower_from_ascii lower_other (before s : list N) :
  Forall (λ c, (c < 128)%N) s →
  lower_from lower_other before s = ascii_lower <$> s.
Proof.
  intros Hs. revert before.
  induction Hs as [|c s Hc _ IH]; intros before; csimpl; [done|].
  rewrite IH. unfold lower_char, ascii_lower.
  destruct (is_ascii_upper c); [done|].
  by replace (c <? 128)%N with true by (symmetry; by apply N.ltb_lt).
Qed.

Lemma count_lines_tokens lower_other m (lines : list (list N)) :
  count_lines lower_other m lines
  = foldl (λ m ts, foldl (λ counts word, add_count word 1 counts) m ts) m
      (tokenize lower_other <$> lines).
Proof. unfold count_lines, count_line. by rewrite foldl_fmap. Qed.

(** X9. Counting is case-insensitive on ASCII text: two line sequences of
    ASCII characters that become equal once their capital letters are
    replaced by the small ones get the same mapping from
    [single_threaded_wordcount], whatever the Unicode tables say. *)
Theorem ascii_case_insensitive lower_other (lines lines' : list (list N)) :
  Forall (Forall (λ c, (c < 128)%N)) lines →
  Forall (Forall (λ c, (c < 128)%N)) lines' →
  ((λ l : list N, ascii_lower <$> l) <$> lines)
  = ((λ l : list N, ascii_lower <$> l) <$> lines') →
  single_threaded_wordcount lower_other lines
  = single_threaded_wordcount lower_other lines'.
Proof.
  intros Hl Hl' Heq. unfold single_threaded_wordcount.
  rewrite !count_lines_tokens. f_equal.
  assert (Htok : ∀ ls : list (list N),
            Forall (Forall (λ c, (c < 128)%N)) ls →
            tokenize lower_other <$> ls
            = findall is_alpha <$> ((λ l : list N, ascii_lower <$> l) <$> ls)).
  { intros ls Hls. rewrite <-list_fmap_compose.
    apply list_fmap_ext. intros i l Hi. simpl. unfold tokenize, lower.
    rewrite lower_from_ascii; [done|].
    rewrite Forall_forall in Hls. apply Hls.
    by eapply list_elem_of_lookup_2. }
  by rewrite !Htok, Heq.
Qed.

Lemma ascii_case_insensitive_witness :
  Forall (Forall (λ c, (c < 128)%N)) [str "The QUICK fox"] ∧
  Forall (Forall (λ c, (c < 128)%N)) [str "tHE quick FOX"] ∧
  single_threaded_wordcount lower_id [str "The QUICK fox"]
  = single_threaded_wordcount lower_id [str "tHE quick FOX"].
Proof.
  assert (H1 : Forall (Forall (λ c, (c < 128)%N)) [str "The QUICK fox"])
    by (apply (bool_decide_unpack _); by vm_compute).
  assert (H2 : Forall (Forall (λ c, (c < 128)%N)) [str "tHE quick FOX"])
    by (apply (bool_decide_unpack _); by vm_compute).
  split; [exact H1|]. split; [exact H2|].
  exact (ascii_case_insensitive lower_id _ _ H1 H2 eq_refl).
Defined.

(** ** wordcount_mt.py: the dictionary of reduced counts *)

Lemma dict_set_fresh k v (d : list (list N * Z)) :
  k ∉ d.*1 → dict_set k v d = d ++ [(k, v)].
Proof.
  induction d as [|[k' v'] d IH]; csimpl; [done|].
  rewrite not_elem_of_cons. intros [Hne Hni].
  rewrite decide_False by done. by rewrite IH.
Qed.

Lemma dict_set_keys k v (d : list (list N * Z)) :
  (dict_set k v d).*1 = if decide (k ∈ d.*1) then d.*1 else d.*1 ++ [k].
Proof.
  induction d as [|[k' v'] d IH]; csimpl; [done|].
  destruct (decide (k' = k)) as [->|Hne]; csimpl.
  - rewrite decide_True by left. done.
  - rewrite IH. destruct (decide (k ∈ d.*1)) as [Hin|Hout].
    + rewrite decide_True by (by right). done.
    + rewrite decide_False; [done|].
      intros [?|?]%elem_of_cons; [by apply Hne|done].
Qed.

Lemma dict_set_to_map k v (d : list (list N * Z)) :
  list_to_map (dict_set k v d) =@{gmap (list N) Z} <[k := v]> (list_to_map d).
Proof.
  induction d as [|[k' v'] d IH]; csimpl; [done|].
  destruct (decide (k' = k)) as [->|Hne]; csimpl.
  - by rewrite insert_insert_eq.
  - rewrite IH. by apply insert_insert_ne.
Qed.

Lemma sum_get_total (key : list N) (partials : list (gmap (list N) Z)) acc :
  foldl (λ acc d, acc + default 0 (d !! key)) acc partials
  = acc + total_of key partials.
Proof.
  revert acc. induction partials as [|d ds IH]; intros acc; simpl; [lia|].
  rewrite IH. unfold count_of. lia.
Qed.

(** X10. [ReduceThread.run] stores under its key the sum of the counts the
    partial counters give that key, a missing key counting for 0, and
    changes nothing else: the other entries keep their values, an existing
    key keeps its place in the dictionary and a new key goes to the end, so
    keys stay distinct. *)
Theorem ReduceThread_run_stores_total (key : list N)
    (partials : list (gmap (list N) Z)) (result_dict : list (list N * Z)) :
  NoDup result_dict.*1 →
  list_to_map (ReduceThread_run key partials result_dict)
  =@{gmap (list N) Z}
  <[key := total_of key partials]> (list_to_map result_dict) ∧
  (ReduceThread_run key partials result_dict).*1
  = (if decide (key ∈ result_dict.*1) then result_dict.*1
     else result_dict.*1 ++ [key]) ∧
  NoDup (ReduceThread_run key partials result_dict).*1.
Proof.
  intros Hnd. unfold ReduceThread_run.
  rewrite sum_get_total, Z.add_0_l. split_and!.
  - apply dict_set_to_map.
  - apply dict_set_keys.
  - rewrite dict_set_keys. case_decide as Hin; [done|].
    apply NoDup_app. split_and!; [done| |apply NoDup_singleton].
    intros k Hk ->%list_elem_of_singleton. done.
Qed.

Lemma ReduceThread_run_stores_total_witness :
  NoDup [(str "a", 7); (str "b", 1)].*1 ∧
  ReduceThread_run (str "a")
    [{[ str "a" := 2 ]}; {[ str "b" := 4 ]}; {[ str "a" := 1 ]}]
    [(str "a", 7); (str "b", 1)]
  = [(str "a", 3); (str "b", 1)] ∧
  NoDup (ReduceThread_run (str "a")
           [{[ str "a" := 2 ]}; {[ str "b" := 4 ]}; {[ str "a" := 1 ]}]
           [(str "a", 7); (str "b", 1)]).*1.
Proof.
  assert (Hnd : NoDup [(str "a", 7); (str "b", 1)].*1)
    by (apply (bool_decide_unpack _); by vm_compute).
  destruct (ReduceThread_run_stores_total (str "a")
              [{[ str "a" := 2 ]}; {[ str "b" := 4 ]}; {[ str "a" := 1 ]}]
              [(str "a", 7); (str "b", 1)] Hnd) as (_ & _ & Hnd').
  split; [exact Hnd|]. split; [by vm_compute|exact Hnd'].
Defined.

(** ** wordcount_mt.py: thread counts below 1 *)

Lemma multithreaded_negative lower_other is_word_other lines n :
  n ≤ -1 → multithreaded_count lower_other is_word_other lines n = Ok [].
Proof.
  intros Hn. unfold multithreaded_count.
  rewrite floordiv_nonzero by lia. cbn [mbind result_bind].
  unfold mt_chunks, range. replace (Z.to_nat n) with 0%nat by lia. simpl.
  by rewrite elements_empty.
Qed.

Lemma Counter_spec lower_other is_word_other (text : list N) :
  positive (Counter (tokenize_w lower_other is_word_other text)) ∧
  ∀ w, count_of (Counter (tokenize_w lower_other is_word_other text)) w
       = occurrences w (tokenize_w lower_other is_word_other text).
Proof.
  unfold Counter.
  destruct (count_words_spec (tokenize_w lower_other is_word_other text) ∅)
    as [Hc Hp].
  split; [apply Hp, positive_empty|].
  intros w. rewrite Hc, count_of_empty. lia.
Qed.

(** X11. [multithreaded_count] does not check its thread count either.  On
    0 it raises [ZeroDivisionError] when it computes the chunk size, before
    any thread exists.  On -1 or less it starts no thread and returns the
    empty dictionary whatever the lines are, so that the comparison [main]
    makes with the single-threaded counts succeeds only for a text without
    any word. *)
Theorem multithreaded_count_invalid_threads lower_other is_word_other
    (lines : list (list N)) (n : Z) :
  n ≤ -1 →
  multithreaded_count lower_other is_word_other lines 0
  = Raise ZeroDivisionError ∧
  multithreaded_count lower_other is_word_other lines n = Ok [] ∧
  counts_match lower_other is_word_other lines n
  = Ok (bool_decide
          (tokenize_w lower_other is_word_other (join [10%N] lines) = [])).
Proof.
  intros Hn. split_and!; [done|by apply multithreaded_negative|].
  unfold counts_match. rewrite multithreaded_negative by done.
  cbn [mbind result_bind]. f_equal. apply bool_decide_ext.
  unfold single_thread_count. rewrite list_to_map_nil. split.
  - intros Hempty.
    destruct (tokenize_w lower_other is_word_other (join [10%N] lines))
      as [|w ws] eqn:E; [done|].
    destruct (Counter_spec lower_other is_word_other (join [10%N] lines))
      as [_ Hc].
    specialize (Hc w). rewrite E, Hempty, count_of_empty in Hc.
    pose proof (occurrences_pos w (w :: ws)) as Hpos.
    rewrite <-Hc in Hpos. assert (0 < 0); [apply Hpos; left|lia].
  - by intros ->.
Qed.

Lemma multithreaded_count_invalid_threads_witness :
  -2 ≤ -1 ∧
  multithreaded_count lower_id (λ _, false) [str "a b"] 0
  = Raise ZeroDivisionError ∧
  multithreaded_count lower_id (λ _, false) [str "a b"] (-2) = Ok [] ∧
  counts_match lower_id (λ _, false) [str "a b"] (-2) = Ok false.
Proof.
  assert (Hn : -2 ≤ -1) by lia.
  destruct (multithreaded_count_invalid_threads lower_id (λ _, false)
              [str "a b"] (-2) Hn) as (Hzero & Hneg & Hmatch).
  split; [exact Hn|]. split; [exact Hzero|]. split; [exact Hneg|].
  exact Hmatch.
Defined.

(** ** wordcount_mt.py: words and line boundaries *)

Lemma findall_run_split p cur s1 c s2 :
  p c = false →
  findall_run p cur (s1 ++ c :: s2)
  = findall_run p cur s1 ++ findall p s2.
Proof.
  intros Hc. revert cur. induction s1 as [|x s1 IH]; intros cur; simpl.
  - rewrite Hc. by destruct cur.
  - destruct (p x); [apply IH|].
    destruct cur; [apply IH|]. by rewrite IH.
Qed.

Lemma lower_from_id before s :
  lower_from lower_id before s = lower_from lower_id [] s.
Proof.
  revert before. generalize (@nil N) as before'.
  induction s as [|c s IH]; intros before' before; simpl; [done|].
  f_equal. apply IH.
Qed.

Lemma lower_from_id_app before l1 l2 :
  lower_from lower_id before (l1 ++ l2)
  = lower_from lower_id [] l1 ++ lower_from lower_id [] l2.
Proof.
  revert before. induction l1 as [|c l1 IH]; intros before; simpl.
  - apply lower_from_id.
  - rewrite IH, (lower_from_id [c] l1), <-app_assoc. reflexivity.
Qed.

Lemma lower_id_line_local l1 l2 :
  lower lower_id (l1 ++ 10%N :: l2)
  = lower lower_id l1 ++ 10%N :: lower lower_id l2.
Proof.
  unfold lower. rewrite lower_from_id_app. f_equal. simpl.
  f_equal. apply lower_from_id.
Qed.

Lemma join_tokens lower_other is_word_other (lines : list (list N)) :
  (∀ l1 l2, lower lower_other (l1 ++ 10%N :: l2)
            = lower lower_other l1 ++ 10%N :: lower lower_other l2) →
  tokenize_w lower_other is_word_other (join [10%N] lines)
  = concat (tokenize_w lower_other is_word_other <$> lines).
Proof.
  intros Hlocal. induction lines as [|l lines IH]; [done|].
  destruct lines as [|l' lines].
  - csimpl. by rewrite app_nil_r.
  - change (join [10%N] (l :: l' :: lines))
      with (l ++ 10%N :: join [10%N] (l' :: lines)).
    rewrite fmap_cons. change (concat (?x :: ?r)) with (x ++ concat r).
    rewrite <-IH. unfold tokenize_w at 1. rewrite Hlocal.
    unfold findall. by rewrite findall_run_split.
Qed.

(** X12. Lowercasing not looking across a line feed, the words
    [MapThread] and [single_thread_count] find in lines joined by line
    feeds are the words of the first line, then those of the second, and so
    on: joining never makes a word out of the end of one line and the start
    of the next. *)
Theorem joined_lines_tokens lower_other is_word_other
    (lines : list (list N)) :
  (∀ l1 l2, lower lower_other (l1 ++ 10%N :: l2)
            = lower lower_other l1 ++ 10%N :: lower lower_other l2) →
  tokenize_w lower_other is_word_other (join [10%N] lines)
  = concat (tokenize_w lower_other is_word_other <$> lines).
Proof. apply join_tokens. Qed.

Lemma joined_lines_tokens_witness :
  tokenize_w lower_id (λ _, false) (join [10%N] [str "ab c"; str "d_1 E"])
  = concat (tokenize_w lower_id (λ _, false) <$> [str "ab c"; str "d_1 E"]).
Proof.
  exact (joined_lines_tokens lower_id (λ _, false)
           [str "ab c"; str "d_1 E"] lower_id_line_local).
Defined.

(** ** wordcount_mt.py: the printed list *)

Lemma print_top_length idx (items : list (list N * Z)) :
  idx ≤ 25 →
  length (print_top idx items)
  = (Z.to_nat (26 - idx) `min` length items)%nat.
Proof.
  revert idx. induction items as [|[w c] items IH]; intros idx Hidx; simpl.
  - lia.
  - case_decide; simpl.
    + replace idx with 25 by lia. simpl. lia.
    + rewrite IH by lia.
      replace (Z.to_nat (26 - idx)) with (S (Z.to_nat (26 - (idx + 1)))) by lia.
      simpl. done.
Qed.

Lemma print_top_lookup idx (items : list (list N * Z)) i w c :
  idx ≤ 25 → (i < Z.to_nat (26 - idx))%nat →
  items !! i = Some (w, c) →
  print_top idx items !! i = Some (idx + Z.of_nat i, w, c).
Proof.
  revert idx i. induction items as [|[w' c'] items IH]; intros idx i Hidx Hi;
    [done|].
  destruct i as [|i]; simpl.
  - intros [= -> ->]. f_equal. f_equal. f_equal. lia.
  - intros Hitem. case_decide; [lia|].
    rewrite (IH (idx + 1) i) by (done || lia). f_equal. f_equal. f_equal. lia.
Qed.

(** X13. Under the heading "Top 20 words" [main] prints the first 25
    entries of the dictionary, or all of them when there are fewer, in the
    order of the dictionary and numbered from 1. *)
Theorem top_list_prints_25 (items : list (list N * Z)) :
  length (print_top 1 items) = (25 `min` length items)%nat ∧
  ∀ i w c, (i < 25)%nat → items !! i = Some (w, c) →
           print_top 1 items !! i = Some (Z.of_nat i + 1, w, c).
Proof.
  split.
  - by rewrite print_top_length.
  - intros i w c Hi Hitem.
    rewrite (print_top_lookup 1 items i w c) by (done || lia).
    do 3 f_equal. lia.
Qed.

(** ** wordcount_mt.py: the whole pipeline *)

(** X14. With at least one thread, the Map phase of [multithreaded_count]
    cuts the lines into as many chunks as threads, of [chunk_size] lines
    each as long as lines remain, where [chunk_size] is the number of lines
    divided by the thread count and rounded up; chunk [i] starts at line
    [i * chunk_size], no chunk is longer than [chunk_size], and the chunks
    put end to end are the lines. *)
Theorem mt_chunks_cover {A} (lines : list A) (n : Z) :
  1 ≤ n →
  let chunk_size := (Z.of_nat (length lines) + n - 1) `div` n in
  let parts := mt_chunks lines chunk_size n in
  Z.of_nat (length lines) ≤ n * chunk_size
    < Z.of_nat (length lines) + n ∧
  length parts = Z.to_nat n ∧
  concat parts = lines ∧
  ∀ i chunk, parts !! i = Some chunk →
    chunk = take (Z.to_nat chunk_size) (drop (i * Z.to_nat chunk_size) lines) ∧
    Z.of_nat (length chunk) ≤ chunk_size.
Proof.
  intros Hn chunk_size parts. subst parts chunk_size.
  destruct (mt_chunks_ceil lines n Hn) as (sz & Hsz & Hge & _ & Hparts).
  split_and!.
  - lia.
  - pose proof (Z.mul_div_le (Z.of_nat (length lines) + n - 1) n) as Hle.
    lia.
  - by rewrite Hparts, length_fmap, length_seq.
  - rewrite Hparts, uniform_chunks_concat. by apply take_ge.
  - intros i chunk. rewrite Hparts, list_lookup_fmap. intros Hi.
    destruct (seq 0 (Z.to_nat n) !! i) as [j|] eqn:Hj; [|done].
    apply lookup_seq in Hj as [-> _]. injection Hi as <-. simpl.
    rewrite Hsz, Nat2Z.id. split; [done|]. rewrite length_take. lia.
Qed.

Lemma mt_chunks_cover_witness :
  1 ≤ 3 ∧
  mt_chunks [1; 2; 3; 4; 5; 6; 7]%nat ((7 + 3 - 1) `div` 3) 3
  = [[1; 2; 3]; [4; 5; 6]; [7]]%nat ∧
  concat (mt_chunks [1; 2; 3; 4; 5; 6; 7]%nat
            ((Z.of_nat (length [1; 2; 3; 4; 5; 6; 7]%nat) + 3 - 1) `div` 3) 3)
  = [1; 2; 3; 4; 5; 6; 7]%nat.
Proof.
  assert (Hn : 1 ≤ 3) by lia.
  destruct (mt_chunks_cover [1; 2; 3; 4; 5; 6; 7]%nat 3 Hn)
    as (_ & _ & Hcat & _).
  split; [exact Hn|]. split; [reflexivity|exact Hcat].
Defined.

Lemma foldl_ReduceThread_run (pm : list (gmap (list N) Z))
    (ks : list (list N)) (acc : list (list N * Z)) :
  NoDup ks → (∀ k, k ∈ ks → k ∉ acc.*1) →
  foldl (λ acc key, ReduceThread_run key pm acc) acc ks
  = acc ++ ((λ k, (k, total_of k pm)) <$> ks).
Proof.
  intros Hnd. revert acc.
  induction Hnd as [|k ks Hk Hnd IH]; intros acc Hfresh; csimpl.
  - by rewrite app_nil_r.
  - unfold ReduceThread_run at 2. rewrite sum_get_total, Z.add_0_l.
    rewrite dict_set_fresh by (apply Hfresh; left).
    rewrite IH, <-app_assoc; [done|].
    intros k' Hk'. rewrite fmap_app, elem_of_app. csimpl.
    intros [Hin|Hin%list_elem_of_singleton].
    + by apply (Hfresh k'); [right|].
    + by subst.
Qed.

Lemma dict_of_distinct (l acc : list (list N * Z)) :
  NoDup (acc.*1 ++ l.*1) →
  foldl (λ d kv, dict_set kv.1 kv.2 d) acc l = acc ++ l.
Proof.
  revert acc. induction l as [|[k v] l IH]; intros acc Hnd; csimpl.
  - by rewrite app_nil_r.
  - apply NoDup_app in Hnd as Hnd'. destruct Hnd' as (_ & Hdisj & _).
    rewrite dict_set_fresh.
    2:{ intros Hin. apply (Hdisj k Hin). left. }
    rewrite IH, <-app_assoc; [done|].
    rewrite fmap_app. csimpl. by rewrite <-app_assoc.
Qed.

Lemma keyed_to_map_lookup (f : list N → Z) (ks : list (list N)) (w : list N) :
  (list_to_map ((λ k, (k, f k)) <$> ks) : gmap (list N) Z) !! w
  = if decide (w ∈ ks) then Some (f w) else None.
Proof.
  induction ks as [|k ks IH]; csimpl.
  - destruct (decide (w ∈ [])) as [Hin|_]; [by apply elem_of_nil in Hin|].
    apply lookup_empty.
  - rewrite lookup_insert. destruct (decide (k = w)) as [->|Hne].
    + rewrite decide_True by left. done.
    + rewrite IH. destruct (decide (w ∈ ks)).
      * rewrite decide_True by (by right). done.
      * rewrite decide_False; [done|].
        intros [?|?]%elem_of_cons; [by apply Hne|done].
Qed.

Lemma elem_of_union_list_dom (pm : list (gmap (list N) Z)) (w : list N) :
  w ∈ (⋃ (dom <$> pm) : gset (list N))
  ↔ Exists (λ m, is_Some (m !! w)) pm.
Proof.
  rewrite elem_of_union_list, Exists_exists. split.
  - intros (X & (m & -> & Hm)%list_elem_of_fmap & Hw).
    exists m. split; [done|]. by apply elem_of_dom.
  - intros (m & Hm & Hw). exists (dom m). split.
    + apply list_elem_of_fmap. by exists m.
    + by apply elem_of_dom.
Qed.

(** With at least one thread: the chunks, their counters, and the sorted
    items of the reduced dictionary, which has one entry per key of the
    counters. *)
Lemma multithreaded_unfold lower_other is_word_other
    (lines : list (list N)) (n : Z) :
  1 ≤ n →
  ∃ parts : list (list (list N)),
    concat parts = lines ∧
    multithreaded_count lower_other is_word_other lines n
    = Ok (sorted_by_count_desc
            ((λ k, (k, total_of k
                         ((λ chunk, Counter (tokenize_w lower_other
                                               is_word_other
                                               (join [10%N] chunk)))
                            <$> parts)))
               <$> elements
                     (⋃ (dom <$> ((λ chunk,
                                     Counter (tokenize_w lower_other
                                                is_word_other
                                                (join [10%N] chunk)))
                                    <$> parts)) : gset (list N)))).
Proof.
  intros Hn.
  destruct (mt_chunks_exact lines n Hn) as [_ Hcat].
  exists (mt_chunks lines ((Z.of_nat (length lines) + n - 1) `div` n) n).
  split; [done|].
  unfold multithreaded_count.
  rewrite floordiv_nonzero by lia. cbn [mbind result_bind].
  rewrite foldl_MapThread_run, app_nil_l.
  set (pm := _ <$> mt_chunks lines _ n).
  assert (Hkeys : match pm with [] => ∅ | _ => ⋃ (dom <$> pm) end
                  = (⋃ (dom <$> pm) : gset (list N)))
    by (by destruct pm).
  rewrite Hkeys.
  rewrite foldl_ReduceThread_run, app_nil_l.
  2:{ apply NoDup_elements. }
  2:{ intros k _. apply not_elem_of_nil. }
  unfold CombinerThread_run. rewrite app_nil_l.
  f_equal. unfold dict_of. rewrite dict_of_distinct; [done|].
  csimpl. rewrite sorted_by_count_desc_Permutation.
  rewrite <-list_fmap_compose.
  rewrite (list_fmap_ext _ id (elements _)) by done.
  rewrite list_fmap_id. apply NoDup_elements.
Qed.

Lemma Counters_positive lower_other is_word_other
    (parts : list (list (list N))) :
  Forall positive
    ((λ chunk, Counter (tokenize_w lower_other is_word_other
                          (join [10%N] chunk))) <$> parts).
Proof.
  apply Forall_fmap, Forall_forall. intros p _. apply Counter_spec.
Qed.

(** X15. With at least one thread [multithreaded_count] returns a
    dictionary whose items come in descending order of count, as the
    comment on its last line says, with every word once and no count below
    1. *)
Theorem multithreaded_count_descending lower_other is_word_other
    (lines : list (list N)) (n : Z) :
  1 ≤ n →
  ∃ d, multithreaded_count lower_other is_word_other lines n = Ok d ∧
       NoDup d.*1 ∧
       StronglySorted count_ge d ∧
       Forall (λ kv, 0 < kv.2) d.
Proof.
  intros Hn.
  destruct (multithreaded_unfold lower_other is_word_other lines n Hn)
    as (parts & _ & ->).
  set (pm := _ <$> parts).
  eexists. split; [done|]. split_and!.
  - rewrite sorted_by_count_desc_Permutation, <-list_fmap_compose.
    rewrite (list_fmap_ext _ id (elements _)) by done.
    rewrite list_fmap_id. apply NoDup_elements.
  - apply sorted_by_count_desc_sorted.
  - rewrite sorted_by_count_desc_Permutation.
    apply Forall_fmap, Forall_forall. intros k Hk. simpl.
    apply total_of_pos; [apply Counters_positive|].
    by apply elem_of_union_list_dom, elem_of_elements.
Qed.

Lemma multithreaded_count_descending_witness :
  1 ≤ 2 ∧
  ∃ d, multithreaded_count lower_id (λ _, false)
         [str "b a"; str "a c a"] 2 = Ok d ∧
       NoDup d.*1 ∧
       StronglySorted count_ge d ∧
       Forall (λ kv, 0 < kv.2) d.
Proof.
  split; [lia|]. apply multithreaded_count_descending. lia.
Defined.

Lemma chunk_counters_total lower_other is_word_other
    (parts : list (list (list N))) (w : list N) :
  (∀ l1 l2, lower lower_other (l1 ++ 10%N :: l2)
            = lower lower_other l1 ++ 10%N :: lower lower_other l2) →
  total_of w ((λ chunk, Counter (tokenize_w lower_other is_word_other
                                   (join [10%N] chunk))) <$> parts)
  = occurrences w (tokenize_w lower_other is_word_other
                     (join [10%N] (concat parts))).
Proof.
  intros Hlocal. rewrite (join_tokens _ _ (concat parts)) by done.
  induction parts as [|p parts IH]; csimpl; [done|].
  rewrite fmap_app, concat_app, occurrences_app, <-IH.
  rewrite (proj2 (Counter_spec lower_other is_word_other (join [10%N] p))).
  by rewrite join_tokens.
Qed.

Lemma multithreaded_equiv lower_other is_word_other
    (lines : list (list N)) (n : Z) :
  1 ≤ n →
  (∀ l1 l2, lower lower_other (l1 ++ 10%N :: l2)
            = lower lower_other l1 ++ 10%N :: lower lower_other l2) →
  ∃ d, multithreaded_count lower_other is_word_other lines n = Ok d ∧
       list_to_map d = single_thread_count lower_other is_word_other lines.
Proof.
  intros Hn Hlocal.
  destruct (multithreaded_unfold lower_other is_word_other lines n Hn)
    as (parts & Hcat & ->).
  set (pm := _ <$> parts).
  eexists. split; [done|].
  assert (Hnd : NoDup ((λ k, (k, total_of k pm))
                         <$> elements (⋃ (dom <$> pm) : gset (list N))).*1).
  { rewrite <-list_fmap_compose.
    rewrite (list_fmap_ext _ id (elements _)) by done.
    rewrite list_fmap_id. apply NoDup_elements. }
  rewrite (list_to_map_proper _ _
             (proj2 (NoDup_Permutation_proper _ _
                       (fmap_Permutation fst _ _
                          (sorted_by_count_desc_Permutation _))) Hnd)
             (sorted_by_count_desc_Permutation _)).
  apply map_eq. intros w. rewrite keyed_to_map_lookup.
  unfold single_thread_count.
  destruct (Counter_spec lower_other is_word_other (join [10%N] lines))
    as [Hpos Hcount].
  rewrite (positive_lookup _ w Hpos), Hcount, <-Hcat.
  rewrite <-(chunk_counters_total lower_other is_word_other parts w Hlocal).
  fold pm.
  pose proof (total_of_pos w pm (Counters_positive _ _ parts)) as Htot.
  rewrite <-elem_of_union_list_dom, <-elem_of_elements in Htot.
  destruct (decide (w ∈ elements (⋃ (dom <$> pm) : gset (list N))))
    as [Hin|Hout].
  - apply Htot in Hin. rewrite decide_False by lia. done.
  - assert (¬ 0 < total_of w pm) by (intros ?; by apply Hout, Htot).
    assert (0 ≤ total_of w pm).
    { clear. generalize (Counters_positive lower_other is_word_other parts).
      fold pm. induction 1 as [|m ms Hm _ IH]; simpl; [done|].
      pose proof (positive_count_of m w Hm). lia. }
    rewrite decide_True by lia. done.
Qed.

(** X16. With at least one thread, and lowercasing not looking across a
    line feed, the dictionary [multithreaded_count] returns holds the same
    words with the same counts as [single_thread_count] on the same lines,
    so the test of [main] finds that the counts match. *)
Theorem multithreaded_matches_single lower_other is_word_other
    (lines : list (list N)) (n : Z) :
  1 ≤ n →
  (∀ l1 l2, lower lower_other (l1 ++ 10%N :: l2)
            = lower lower_other l1 ++ 10%N :: lower lower_other l2) →
  (∃ d, multithreaded_count lower_other is_word_other lines n = Ok d ∧
        list_to_map d = single_thread_count lower_other is_word_other lines) ∧
  counts_match lower_other is_word_other lines n = Ok true.
Proof.
  intros Hn Hlocal.
  destruct (multithreaded_equiv lower_other is_word_other lines n Hn Hlocal)
    as (d & Hd & Heq).
  split; [by exists d|].
  unfold counts_match. rewrite Hd. cbn [mbind result_bind].
  f_equal. by apply bool_decide_eq_true.
Qed.

Lemma multithreaded_matches_single_witness :
  1 ≤ 3 ∧
  (∃ d, multithreaded_count lower_id (λ _, false)
          [str "The quick fox"; str "the QUICK brown fox"] 3 = Ok d ∧
        list_to_map d
        = single_thread_count lower_id (λ _, false)
            [str "The quick fox"; str "the QUICK brown fox"]) ∧
  counts_match lower_id (λ _, false)
    [str "The quick fox"; str "the QUICK brown fox"] 3 = Ok true.
Proof.
  assert (Hn : 1 ≤ 3) by lia.
  split; [exact Hn|].
  exact (multithreaded_matches_single lower_id (λ _, false)
           [str "The quick fox"; str "the QUICK brown fox"] 3 Hn
           lower_id_line_local).
Defined.

(** ** Thread schedules, again *)

Lemma run_threads_schedule {A Slots} (target : A → Slots → nat → Slots)
    (i : nat) (args : list A) (slots : Slots) :
  run_threads target i args slots
  = run_schedule target (zip (seq i (length args)) args) slots.
Proof.
  revert i slots. induction args as [|a args IH]; intros i slots; [done|].
  simpl. by rewrite IH.
Qed.

Lemma run_schedule_Permutation {A Slots} (target : A → Slots → nat → Slots)
    (tasks tasks' : list (nat * A)) (slots : Slots) :
  (∀ a b s i j, i ≠ j → target a (target b s j) i = target b (target a s i) j) →
  NoDup tasks.*1 → tasks ≡ₚ tasks' →
  run_schedule target tasks slots = run_schedule target tasks' slots.
Proof.
  intros Hcomm Hnd Hperm. revert slots Hnd. unfold run_schedule.
  induction Hperm as [|t ts ts' _ IH|t1 t2 ts|ts1 ts2 ts3 Hp12 IH1 _ IH2];
    intros slots Hnd; csimpl in *.
  - done.
  - apply IH. by apply NoDup_cons in Hnd as [_ ?].
  - f_equal. apply Hcomm.
    apply NoDup_cons in Hnd as [Hni _]. intros Heq. apply Hni.
    rewrite Heq. left.
  - rewrite IH1 by done. apply IH2. by rewrite <-Hp12.
Qed.

(** X17. The slot arrays do not depend on the order in which the threads
    of a phase get to run: the Map tasks taken in any order leave the array
    that they leave when run in start order, and so do the Reduce tasks. *)
Theorem phases_schedule_free (lower_other : list N → N → list N → list N)
    (partitions : list (list (list N))) (key_groups : list (list (list N)))
    (map_order : list (nat * list (list N)))
    (reduce_order : list (nat * list (list N)))
    (intermediate slots reduced : list (option (gmap (list N) Z))) :
  map_order ≡ₚ zip (seq 0 (length partitions)) partitions →
  reduce_order ≡ₚ zip (seq 0 (length key_groups)) key_groups →
  run_schedule (map_task lower_other) map_order slots
  = run_threads (map_task lower_other) 0 partitions slots ∧
  run_schedule (λ keys reduced i, reduce_task keys intermediate reduced i)
    reduce_order reduced
  = run_threads (λ keys reduced i, reduce_task keys intermediate reduced i)
      0 key_groups reduced.
Proof.
  intros Hmap Hreduce.
  assert (Hnd : ∀ {B} (args : list B),
            NoDup (zip (seq 0 (length args)) args).*1).
  { intros B args. rewrite fst_zip by (by rewrite length_seq).
    apply NoDup_seq. }
  rewrite !run_threads_schedule. split.
  - symmetry. apply run_schedule_Permutation; [|apply Hnd|done].
    intros a b s i j Hij. by apply map_tasks_commute.
  - symmetry. apply run_schedule_Permutation; [|apply Hnd|done].
    intros a b s i j Hij. by apply reduce_tasks_commute.
Qed.

Lemma phases_schedule_free_witness :
  [(1%nat, [str "c"]); (0%nat, [str "a b"])]
    ≡ₚ zip (seq 0 (length [[str "a b"]; [str "c"]]))
         [[str "a b"]; [str "c"]] ∧
  run_schedule (map_task lower_id)
    [(1%nat, [str "c"]); (0%nat, [str "a b"])] [None; None]
  = run_threads (map_task lower_id) 0 [[str "a b"]; [str "c"]] [None; None].
Proof.
  assert (Hperm : [(1%nat, [str "c"]); (0%nat, [str "a b"])]
                    ≡ₚ zip (seq 0 (length [[str "a b"]; [str "c"]]))
                         [[str "a b"]; [str "c"]])
    by apply Permutation_swap.
  destruct (phases_schedule_free lower_id [[str "a b"]; [str "c"]] []
              _ [] [] [None; None] [] Hperm (Permutation_refl _))
    as [Hmap _].
  split; [exact Hperm|exact Hmap].
Defined.

(** ** The number of unique words *)

(** X18. The number of unique words that [main] reports, the length of the
    mapping, is the number of distinct tokens of the lines, for the
    sequential counter and, with at least one thread, for
    [multi_threaded_wordcount] as well. *)
Theorem unique_words_reported lower_other (lines : list (list N)) (n : Z) :
  1 ≤ n →
  size (single_threaded_wordcount lower_other lines)
  = size (list_to_set (tokens_of lower_other lines) : gset (list N)) ∧
  ∃ multi_counts,
    multi_threaded_wordcount lower_other lines n = Ok multi_counts ∧
    size multi_counts
    = size (list_to_set (tokens_of lower_other lines) : gset (list N)).
Proof.
  intros Hn.
  assert (Hsize : size (single_threaded_wordcount lower_other lines)
                  = size (list_to_set (tokens_of lower_other lines)
                            : gset (list N))).
  { rewrite <-size_dom. f_equal. apply set_eq. intros w.
    rewrite elem_of_dom, elem_of_list_to_set. apply single_key_token. }
  split; [done|]. eexists. split; [by apply multi_threaded_equiv|done].
Qed.

Lemma unique_words_reported_witness :
  1 ≤ 2 ∧
  size (single_threaded_wordcount lower_id
          [str "The quick fox"; str "the QUICK brown fox"])
  = size (list_to_set (tokens_of lower_id
                         [str "The quick fox"; str "the QUICK brown fox"])
            : gset (list N)).
Proof.
  assert (Hn : 1 ≤ 2) by lia.
  destruct (unique_words_reported lower_id
              [str "The quick fox"; str "the QUICK brown fox"] 2 Hn)
    as [Hsingle _].
  split; [exact Hn|exact Hsingle].
Defined.
